(** * testerr: expected properties of errors in tests

    A shallow embedding of package [testerr] (src/testerr/testerr.go) together
    with the parts of the Go standard library it calls: the [error] values
    and [==] on them, [errors.Is], [errors.As], [strings.Contains],
    [strconv.Quote] and the fragment of [fmt.Sprintf] the package reaches
    (plain verbs and explicit argument indexes). *)

From Stdlib Require Import ZArith List String Ascii Bool Lia.
From Stdlib Require Import DecimalString.
Import ListNotations.
Local Open Scope string_scope.
Local Open Scope Z_scope.

(** ** Results of running Go code

    A call either returns, or panics at run time (Go's [==] reaching two
    interface values of one uncomparable dynamic type), or leaves the
    fragment of package [fmt] that is modelled below. *)
Inductive outcome (A : Type) : Type :=
| Ret (a : A)
| Panic
| Unsupported.
Arguments Ret {A} a.
Arguments Panic {A}.
Arguments Unsupported {A}.

Definition bind {A B : Type} (m : outcome A) (f : A -> outcome B) : outcome B :=
  match m with
  | Ret a => f a
  | Panic => Panic
  | Unsupported => Unsupported
  end.

Notation "x <- m ;; k" := (bind m (fun x => k))
  (at level 61, m at next level, right associativity).

(** ** Go strings: sequences of bytes *)
Module GoString.

(** [strings.HasPrefix(s, prefix)]. *)
Fixpoint HasPrefix (s prefix : string) : bool :=
  match prefix, s with
  | EmptyString, _ => true
  | String _ _, EmptyString => false
  | String p prefix', String c s' => Ascii.eqb c p && HasPrefix s' prefix'
  end.

(** [strings.Contains(s, substr)], that is [strings.Index(s, substr) >= 0]:
    some position of [s] starts with [substr]. *)
Fixpoint Contains (s substr : string) : bool :=
  HasPrefix s substr ||
  match s with
  | EmptyString => false
  | String _ s' => Contains s' substr
  end.

Definition byte_of (c : ascii) : Z := Z.of_N (N_of_ascii c).
Definition chr (z : Z) : ascii := ascii_of_N (Z.to_N z).

(** [lowerhex[n]] of package strconv. *)
Definition lowerhex (n : Z) : ascii :=
  if n <? 10 then chr (48 + n) else chr (87 + n).

Definition RuneError : Z := 65533.

(** A UTF-8 continuation byte in the range [lo, hi]. *)
Definition cont (lo hi : Z) (c : ascii) : option Z :=
  let b := byte_of c in
  if (lo <=? b) && (b <=? hi) then Some (Z.land b 63) else None.

(** [utf8.DecodeRuneInString(s)] for a string that starts with the byte
    [c0 >= 0x80]: the rune and its width; [(RuneError, 1)] for an encoding
    that is invalid or cut short. *)
Definition DecodeRune (c0 : ascii) (rest : string) : Z * Z :=
  let b0 := byte_of c0 in
  let bad := (RuneError, 1) in
  if (194 <=? b0) && (b0 <=? 223) then
    match rest with
    | String c1 _ =>
        match cont 128 191 c1 with
        | Some x1 => (Z.shiftl (Z.land b0 31) 6 + x1, 2)
        | None => bad
        end
    | _ => bad
    end
  else if (224 <=? b0) && (b0 <=? 239) then
    match rest with
    | String c1 (String c2 _) =>
        let lo := if b0 =? 224 then 160 else 128 in
        let hi := if b0 =? 237 then 159 else 191 in
        match cont lo hi c1, cont 128 191 c2 with
        | Some x1, Some x2 =>
            (Z.shiftl (Z.land b0 15) 12 + Z.shiftl x1 6 + x2, 3)
        | _, _ => bad
        end
    | _ => bad
    end
  else if (240 <=? b0) && (b0 <=? 244) then
    match rest with
    | String c1 (String c2 (String c3 _)) =>
        let lo := if b0 =? 240 then 144 else 128 in
        let hi := if b0 =? 244 then 143 else 191 in
        match cont lo hi c1, cont 128 191 c2, cont 128 191 c3 with
        | Some x1, Some x2, Some x3 =>
            (Z.shiftl (Z.land b0 7) 18 + Z.shiftl x1 12 + Z.shiftl x2 6 + x3, 4)
        | _, _, _ => bad
        end
    | _ => bad
    end
  else bad.

(** The [n] hexadecimal digits of [r], most significant first. *)
Fixpoint hexdigits (n : nat) (r : Z) : string :=
  match n with
  | O => EmptyString
  | S n' =>
      String (lowerhex (Z.land (Z.shiftr r (4 * Z.of_nat n')) 15)) (hexdigits n' r)
  end.

(** [s[:n]] and [s[n:]] for [0 <= n]. *)
Fixpoint take (n : nat) (s : string) : string :=
  match n, s with
  | S n', String c s' => String c (take n' s')
  | _, _ => EmptyString
  end.

Definition dquote : ascii := "034"%char.
Definition backslash : ascii := "092"%char.

Section Quote.

(** The tables [isPrint16], [isNotPrint16], [isPrint32] and [isNotPrint32] of
    package strconv, read as one predicate on the runes above 0xFF. *)
Variable isPrintTable : Z -> bool.

(** [strconv.IsPrint(r)]. *)
Definition IsPrint (r : Z) : bool :=
  if r <=? 255 then
    if (32 <=? r) && (r <=? 126) then true
    else if (161 <=? r) && (r <=? 255) then negb (r =? 173)
    else false
  else isPrintTable r.

(** [utf8.ValidRune(r)]. *)
Definition ValidRune (r : Z) : bool :=
  ((0 <=? r) && (r <? 55296)) || ((57343 <? r) && (r <=? 1114111)).

(** [appendEscapedRune] with the double quote as [quote], and neither
    [ASCIIonly] nor [graphicOnly]; [raw] holds the bytes
    [utf8.AppendRune] writes for a printable [r], which are the bytes it
    was decoded from. *)
Definition appendEscapedRune (r : Z) (raw : string) : string :=
  if (r =? 34) || (r =? 92) then String backslash (String (chr r) EmptyString)
  else if IsPrint r then raw
  else if r =? 7 then String backslash "a"
  else if r =? 8 then String backslash "b"
  else if r =? 12 then String backslash "f"
  else if r =? 10 then String backslash "n"
  else if r =? 13 then String backslash "r"
  else if r =? 9 then String backslash "t"
  else if r =? 11 then String backslash "v"
  else if (r <? 32) || (r =? 127) then String backslash ("x" ++ hexdigits 2 r)
  else if negb (ValidRune r) then String backslash ("u" ++ hexdigits 4 RuneError)
  else if r <? 65536 then String backslash ("u" ++ hexdigits 4 r)
  else String backslash ("U" ++ hexdigits 8 r).

(** The loop of [appendQuotedWith]: [skip] counts the bytes of the rune in
    progress that are still to be stepped over ([s = s[width:]]). *)
Fixpoint quoteBody (skip : nat) (s : string) : string :=
  match s with
  | EmptyString => EmptyString
  | String c s' =>
      match skip with
      | S k => quoteBody k s'
      | O =>
          let b := byte_of c in
          let rw := if b <? 128 then (b, 1) else DecodeRune c s' in
          let r := fst rw in
          let width := snd rw in
          if (width =? 1) && (r =? RuneError) then
            String backslash ("x" ++ hexdigits 2 b) ++ quoteBody 0 s'
          else
            appendEscapedRune r (take (Z.to_nat width) s)
              ++ quoteBody (Nat.pred (Z.to_nat width)) s'
      end
  end.

(** [strconv.Quote(s)], which is what the verb [%q] prints for a string. *)
Definition Quote (s : string) : string :=
  String dquote (quoteBody 0 s ++ String dquote EmptyString).

End Quote.

End GoString.

(** ** Go error values *)

(** A dynamic type: its name as [%T] prints it, and whether its values can
    be compared with [==]. *)
Record gotype : Type := { tname : string; tcomparable : bool }.

Definition gotype_eqb (a b : gotype) : bool :=
  String.eqb (tname a) (tname b) && Bool.eqb (tcomparable a) (tcomparable b).

(** What [==] inspects in a value of a comparable type: a scalar (an
    integer, a boolean, a string, the address behind a pointer; two scalars
    are equal when their codes are), a floating-point NaN, a nil interface,
    a non-nil interface holding a value of some dynamic type, a struct or
    an array with its fields in source order, or a slice, map or function,
    which has no [==]. *)
Unset Elimination Schemes.
Inductive value : Type :=
| VScalar (z : Z)
| VNaN
| VNil
| VIface (t : gotype) (v : value)
| VStruct (fields : list value)
| VOpaque.
Set Elimination Schemes.

(** [a == b] on two values of one static type. A NaN equals nothing;
    interfaces holding one dynamic type compare what they hold, and panic
    when that type is not comparable; the fields of a struct are compared in
    source order, stopping at the first pair that differs. Values of one
    type have one shape: the cases of two different shapes do not arise. *)
Fixpoint value_eq (a b : value) {struct a} : outcome bool :=
  match a with
  | VScalar x =>
      match b with
      | VScalar y => Ret (x =? y)
      | _ => Ret false
      end
  | VNaN => Ret false
  | VNil =>
      match b with
      | VNil => Ret true
      | _ => Ret false
      end
  | VIface t v =>
      match b with
      | VIface t' v' =>
          if gotype_eqb t t' then
            if tcomparable t then value_eq v v' else Panic
          else Ret false
      | _ => Ret false
      end
  | VStruct fs =>
      match b with
      | VStruct gs =>
          (fix fields (fs gs : list value) {struct fs} : outcome bool :=
             match fs, gs with
             | [], [] => Ret true
             | f :: fs', g :: gs' =>
                 eq <- value_eq f g ;;
                 if (eq : bool) then fields fs' gs' else Ret false
             | _, _ => Ret false
             end) fs gs
      | _ => Ret false
      end
  | VOpaque =>
      match b with
      | VOpaque => Panic
      | _ => Ret false
      end
  end.

(** What every non-nil error value carries: its dynamic type, its value as
    [==] sees it, and the string its [Error] method returns. *)
Record dyn : Type := { dtype : gotype; dval : value; dmsg : string }.

(** A non-nil error: one without an [Unwrap] method, one with
    [Unwrap() error] (which may return nil), or one with [Unwrap() []error]
    (whose elements may be nil). *)
Unset Elimination Schemes.
Inductive error_val : Type :=
| Plain (d : dyn)
| Wraps (d : dyn) (inner : option error_val)
| Joins (d : dyn) (inner : list (option error_val)).
Set Elimination Schemes.

(** The interface type [error]; [None] is nil. *)
Definition error : Type := option error_val.

Definition header (e : error_val) : dyn :=
  match e with
  | Plain d => d
  | Wraps d _ => d
  | Joins d _ => d
  end.

Definition TypeOf (e : error_val) : gotype := dtype (header e).

(** [e.Error()]. *)
Definition Error (e : error_val) : string := dmsg (header e).

(** [a == b] on two interface values: false for two different dynamic
    types, a run-time panic for one dynamic type that is not comparable, the
    comparison of the two values otherwise. *)
Definition go_eq (a b : error) : outcome bool :=
  match a, b with
  | None, None => Ret true
  | None, Some _ => Ret false
  | Some _, None => Ret false
  | Some x, Some y =>
      if gotype_eqb (TypeOf x) (TypeOf y) then
        if tcomparable (TypeOf x) then value_eq (dval (header x)) (dval (header y))
        else Panic
      else Ret false
  end.

(** The type argument [T] of [As]: a concrete type, or an interface type
    with the set of dynamic types that implement it. *)
Inductive target_type : Type :=
| ConcreteT (t : gotype)
| InterfaceT (name : string) (implements : gotype -> bool).

(** [reflectlite.TypeOf(err).AssignableTo(targetType)]. *)
Definition AssignableTo (t : gotype) (T : target_type) : bool :=
  match T with
  | ConcreteT t' => gotype_eqb t t'
  | InterfaceT _ implements => implements t
  end.

(** The values passed as [...any]: an error (nil included), a string, an
    int, and [var target T] left at its zero value for a concrete [T]. *)
Inductive any : Type :=
| AErr (e : error)
| AStr (s : string)
| AInt (z : Z)
| AZero (t : gotype).

(** [var target T] converted to [any]: for an interface type [T] the zero
    value is the nil interface, which converts to a nil [any]. *)
Definition zero_target (T : target_type) : any :=
  match T with
  | ConcreteT t => AZero t
  | InterfaceT _ _ => AErr None
  end.

Section Testerr.

(** The Unicode tables behind [strconv.IsPrint]. *)
Variable isPrintTable : Z -> bool.

(** The method sets of the error types in the program under test: for a
    dynamic type with a method [Is(error) bool], that method (receiver, then
    the non-nil target); for one with [As(any) bool], that method (receiver,
    then the target's type), returning the value it stores in the target
    when it reports true. *)
Variable IsMethod : gotype -> option (error_val -> error_val -> bool).
Variable AsMethod : gotype -> option (error_val -> target_type -> option error_val).

(** *** Package errors *)

(** The function [is] of errors/wrap.go. The comparison [err == target]
    can panic, and the panic is not recovered. *)
Fixpoint is_ (err target : error_val) (targetComparable : bool) {struct err}
  : outcome bool :=
  eq <- (if targetComparable then go_eq (Some err) (Some target) else Ret false) ;;
  if (eq : bool) then Ret true
  else if match IsMethod (TypeOf err) with
          | Some m => m err target
          | None => false
          end then Ret true
  else
    match err with
    | Plain _ => Ret false
    | Wraps _ None => Ret false
    | Wraps _ (Some e) => is_ e target targetComparable
    | Joins _ es =>
        (fix range (l : list (option error_val)) : outcome bool :=
           match l with
           | [] => Ret false
           | None :: l' => range l'
           | Some e :: l' =>
               found <- is_ e target targetComparable ;;
               if (found : bool) then Ret true else range l'
           end) es
    end.

(** [errors.Is(err, target)]. *)
Definition errors_Is (err target : error) : outcome bool :=
  match err, target with
  | Some e, Some t => is_ e t (tcomparable (TypeOf t))
  | None, None => Ret true
  | _, _ => Ret false
  end.

(** The function [as] of errors/wrap.go: the value stored in the target
    when it returns true. *)
Fixpoint as_ (err : error_val) (T : target_type) {struct err} : option error_val :=
  if AssignableTo (TypeOf err) T then Some err
  else
    match match AsMethod (TypeOf err) with
          | Some m => m err T
          | None => None
          end with
    | Some v => Some v
    | None =>
        match err with
        | Plain _ => None
        | Wraps _ None => None
        | Wraps _ (Some e) => as_ e T
        | Joins _ es =>
            (fix range (l : list (option error_val)) : option error_val :=
               match l with
               | [] => None
               | None :: l' => range l'
               | Some e :: l' =>
                   match as_ e T with
                   | Some v => Some v
                   | None => range l'
                   end
               end) es
        end
    end.

(** [errors.As(err, &target)] for [var target T]. *)
Definition errors_As (err : error) (T : target_type) : option error_val :=
  match err with
  | None => None
  | Some e => as_ e T
  end.

(** *** Package fmt, restricted to plain verbs and argument indexes

    A directive is [%] followed by its verb, with at most an explicit
    argument index [[n]] between them: flags, widths and precisions are
    outside the fragment, as is an index that is not a run of digits closed
    by a bracket. An error value is assumed to be printable through its
    [Error] method (no [Format] method, no nil pointer receiver). *)

Definition is_verb (verb c : ascii) : bool := Ascii.eqb verb c.

(** The characters that start a flag, a width, a precision or an argument
    index after [%], and the bytes that start a multi-byte verb. *)
Definition outside_fragment (c : ascii) : bool :=
  let b := GoString.byte_of c in
  is_verb c "#" || is_verb c "+" || is_verb c "-" || is_verb c " "
  || is_verb c "*" || is_verb c "." || is_verb c "["
  || ((48 <=? b) && (b <=? 57)) || (128 <=? b).

Definition decimal (z : Z) : string := NilZero.string_of_int (Z.to_int z).

(** [reflect.TypeOf(arg).String()] for a non-nil argument. *)
Definition type_string (arg : any) : string :=
  match arg with
  | AErr None => "<nil>"
  | AErr (Some e) => tname (TypeOf e)
  | AStr _ => "string"
  | AInt _ => "int"
  | AZero t => tname t
  end.

(** [badVerb]: [%!verb(type=value)], the value printed as [%v] does. *)
Definition badVerb (verb : ascii) (ty value : string) : string :=
  "%!" ++ String verb ("(" ++ ty ++ "=" ++ value ++ ")").

(** [printArg(arg, verb)]. *)
Definition printArg (arg : any) (verb : ascii) : outcome string :=
  match arg with
  | AErr None =>
      if is_verb verb "T" || is_verb verb "v" then Ret "<nil>"
      else Ret ("%!" ++ String verb "(<nil>)")
  | AErr (Some e) =>
      if is_verb verb "T" then Ret (tname (TypeOf e))
      else if is_verb verb "v" || is_verb verb "s" then Ret (Error e)
      else if is_verb verb "q" then Ret (GoString.Quote isPrintTable (Error e))
      else Unsupported
  | AStr s =>
      if is_verb verb "T" then Ret "string"
      else if is_verb verb "v" || is_verb verb "s" then Ret s
      else if is_verb verb "q" then Ret (GoString.Quote isPrintTable s)
      else if is_verb verb "x" || is_verb verb "X" then Unsupported
      else Ret (badVerb verb "string" s)
  | AInt z =>
      if is_verb verb "T" then Ret "int"
      else if is_verb verb "v" || is_verb verb "d" then Ret (decimal z)
      else if is_verb verb "b" || is_verb verb "o" || is_verb verb "O"
              || is_verb verb "x" || is_verb verb "X" || is_verb verb "c"
              || is_verb verb "q" || is_verb verb "U" then Unsupported
      else Ret (badVerb verb "int" (decimal z))
  | AZero t =>
      if is_verb verb "T" then Ret (tname t) else Unsupported
  end.

(** The text [%v] prints for an error: [<nil>] for nil, the result of the
    [Error] method otherwise. *)
Definition render (e : error) : string :=
  match e with
  | None => "<nil>"
  | Some v => Error v
  end.

(** One operand of [%!(EXTRA ...)]. *)
Definition extra_arg (arg : any) : outcome string :=
  match arg with
  | AErr None => Ret "<nil>"
  | _ => v <- printArg arg "v" ;; Ret (type_string arg ++ "=" ++ v)
  end.

Fixpoint extra_args (a : list any) : outcome string :=
  match a with
  | [] => Ret EmptyString
  | [x] => extra_arg x
  | x :: a' =>
      v <- extra_arg x ;; r <- extra_args a' ;; Ret (v ++ ", " ++ r)
  end.

(** What [doPrintf] appends once the format is used up. *)
Definition extra (a : list any) : outcome string :=
  match a with
  | [] => Ret EmptyString
  | _ => r <- extra_args a ;; Ret ("%!(EXTRA " ++ r ++ ")")
  end.

(** Where [doPrintf] is in the format: in plain text, just after [%],
    inside the brackets of an argument index (the number read so far, and
    whether a digit was seen), or after the index ([goodArgNum]). *)
Inductive pstate : Type :=
| PText
| PVerb
| PIndex (n : nat) (seen : bool)
| PAfterIndex (good : bool).

Definition digit_of (c : ascii) : option nat :=
  let b := GoString.byte_of c in
  if (48 <=? b) && (b <=? 57) then Some (Z.to_nat (b - 48)) else None.

(** What [doPrintf] appends once the format is used up: the surplus
    arguments, unless an explicit index was met. *)
Definition finish (a : list any) (argNum : nat) (reordered : bool)
  : outcome string :=
  if reordered then Ret EmptyString else extra (skipn argNum a).

(** [doPrintf(format, a)], one byte of the format at a time; [argNum] is
    the next argument and [reordered] records that an index was met. *)
Fixpoint doPrintf (format : string) (st : pstate) (a : list any)
    (argNum : nat) (reordered : bool) {struct format} : outcome string :=
  match format with
  | EmptyString =>
      match st with
      | PText => finish a argNum reordered
      | PVerb | PAfterIndex _ =>
          r <- finish a argNum reordered ;; Ret ("%!(NOVERB)" ++ r)
      | PIndex _ _ => Unsupported
      end
  | String c rest =>
      let verb (good : bool) : outcome string :=
        if outside_fragment c then Unsupported
        else if is_verb c "%" then
          r <- doPrintf rest PText a argNum reordered ;; Ret (String "%" r)
        else if negb good then
          r <- doPrintf rest PText a argNum reordered ;;
          Ret ("%!" ++ String c "(BADINDEX)" ++ r)
        else
          match nth_error a argNum with
          | None =>
              r <- doPrintf rest PText a argNum reordered ;;
              Ret ("%!" ++ String c "(MISSING)" ++ r)
          | Some arg =>
              v <- printArg arg c ;;
              r <- doPrintf rest PText a (S argNum) reordered ;; Ret (v ++ r)
          end in
      match st with
      | PText =>
          if is_verb c "%" then doPrintf rest PVerb a argNum reordered
          else r <- doPrintf rest PText a argNum reordered ;; Ret (String c r)
      | PVerb =>
          if is_verb c "[" then doPrintf rest (PIndex 0 false) a argNum true
          else verb true
      | PIndex n seen =>
          if is_verb c "]" then
            let good := seen && (1 <=? n)%nat && (n <=? List.length a)%nat in
            doPrintf rest (PAfterIndex good) a
              (if good then Nat.pred n else argNum) true
          else
            match digit_of c with
            | Some d => doPrintf rest (PIndex (10 * n + d)%nat true) a argNum true
            | None => Unsupported
            end
      | PAfterIndex good => verb good
      end
  end.

(** [fmt.Sprintf(format, a...)]. *)
Definition Sprintf (format : string) (a : list any) : outcome string :=
  doPrintf format PText a 0 false.

(** *** Package testerr *)

(** A non-nil value of the interface [Want]: its method [ErrDiff]. *)
Record WantImpl : Type := { ErrDiff : error -> outcome string }.

(** The interface type [Want]; [None] is nil. *)
Definition Want : Type := option WantImpl.

(** [want.ErrDiff(got)]: a method call on a nil interface panics. *)
Definition call_ErrDiff (want : Want) (got : error) : outcome string :=
  match want with
  | None => Panic
  | Some w => ErrDiff w got
  end.

(** [type Func func(error) string]. *)
Definition Func : Type := error -> outcome string.

(** [func (fn Func) ErrDiff(got error) string]. *)
Definition Func_ErrDiff (fn : Func) (got : error) : outcome string := fn got.

(** The conversion of a [Func] to the interface [Want]. *)
Definition Func_Want (fn : Func) : Want := Some {| ErrDiff := Func_ErrDiff fn |}.

(** [func DiffMessage(got error, wantFormat string, a ...any) string]. *)
Definition DiffMessage (got : error) (wantFormat : string) (a : list any)
  : outcome string :=
  format <- Sprintf "got error %%v; want %s" [AStr wantFormat] ;;
  Sprintf format (AErr got :: a).

(** [func Diff(got error, want Want) string]. *)
Definition Diff (got : error) (want : Want) : outcome string :=
  match want with
  | None =>
      match got with
      | None => Ret EmptyString
      | Some _ => DiffMessage got "nil" []
      end
  | Some _ => call_ErrDiff want got
  end.

(** [func Is(target error) Want]. *)
Definition Is (target : error) : Want :=
  Func_Want (fun got =>
    found <- errors_Is got target ;;
    if (found : bool) then Ret EmptyString
    else DiffMessage got "error that Is() %v" [AErr target]).

(** [func As[T error](match func(got T) (expected string)) Want]. *)
Definition As (T : target_type) (match_ : error_val -> string) : Want :=
  Func_Want (fun got =>
    match errors_As got T with
    | None => DiffMessage got "error tree containing type %T" [zero_target T]
    | Some target =>
        match match_ target with
        | EmptyString => Ret EmptyString
        | String _ _ as d => DiffMessage got "%s" [AStr d]
        end
    end).

(** [func Equals(want error) Want]. *)
Definition Equals (want : error) : Want :=
  Func_Want (fun got =>
    eq <- go_eq got want ;;
    if (eq : bool) then Ret EmptyString
    else DiffMessage got "== %v" [AErr want]).

(** [func Contains(substr string) Want]. *)
Definition Contains (substr : string) : Want :=
  Func_Want (fun got =>
    if match got with
       | Some e => GoString.Contains (Error e) substr
       | None => false
       end
    then Ret EmptyString
    else DiffMessage got "containing substring %q" [AStr substr]).

End Testerr.

(** ** The errors of the package's example (testerr_test.go) *)
Module Example.

Definition errorString : gotype := {| tname := "*errors.errorString"; tcomparable := true |}.
Definition wrapError : gotype := {| tname := "*fmt.wrapError"; tcomparable := true |}.
Definition myError : gotype := {| tname := "testerr_test.myError"; tcomparable := true |}.

(** [errors.New("uh oh")], [fmt.Errorf("wrapped(%w)", errUhOh)] and
    [errors.New("something else")], each a fresh pointer. *)
Definition errUhOh : error_val :=
  Plain {| dtype := errorString; dval := VScalar 1; dmsg := "uh oh" |}.
Definition errWrapped : error_val :=
  Wraps {| dtype := wrapError; dval := VScalar 2; dmsg := "wrapped(uh oh)" |} (Some errUhOh).
Definition errOther : error_val :=
  Plain {| dtype := errorString; dval := VScalar 3; dmsg := "something else" |}.

(** A second [errors.New("uh oh")]: the same message at another address. *)
Definition errLookalike : error_val :=
  Plain {| dtype := errorString; dval := VScalar 5; dmsg := "uh oh" |}.

(** [myError{val}], whose [Error] is [fmt.Sprintf("val %d is not good", e.val)]. *)
Definition myErrorOf (val : Z) : error_val :=
  Plain {| dtype := myError; dval := VStruct [VScalar val];
           dmsg := "val " ++ decimal val ++ " is not good" |}.

(** The field [val] of a [myError]. *)
Definition myError_val (e : error_val) : Z :=
  match dval (header e) with
  | VStruct [VScalar val] => val
  | _ => 0
  end.
Definition err42 : error_val := myErrorOf 42.
Definition err43 : error_val := myErrorOf 43.

(** The matcher function of [want42]. *)
Definition match42 (got : error_val) : string :=
  if myError_val got =? 42 then EmptyString else "42 (of course)".

(** No Unicode table is consulted on ASCII text, and none of the example's
    types declares an [Is] or an [As] method. *)
Definition noTable (r : Z) : bool := false.
Definition noIs (t : gotype) : option (error_val -> error_val -> bool) := None.
Definition noAs (t : gotype) : option (error_val -> target_type -> option error_val) := None.

(** An error type that is a slice, [type errList []string], hence not
    comparable. *)
Definition errList : gotype := {| tname := "testerr_test.errList"; tcomparable := false |}.
Definition errBatch : error_val :=
  Plain {| dtype := errList; dval := VOpaque; dmsg := "first; second" |}.

(** The interface type [net.Error], which none of the types above
    implements (they have no [Timeout] method). *)
Definition netError : target_type := InterfaceT "net.Error" (fun _ => false).

Definition want42 : Want := As noTable noAs (ConcreteT myError) match42.

(** [func (e myError) Error() string]. *)
Definition myError_Error (val : Z) : outcome string :=
  Sprintf noTable "val %d is not good" [AInt val].

(** The table of [ExampleDiff], row by row. *)
Definition tests : list (error * Want) :=
  [ (None, None);
    (Some errUhOh, None);
    (Some errUhOh, Equals noTable (Some errUhOh));
    (Some errWrapped, Equals noTable (Some errUhOh));
    (Some errWrapped, Is noTable noIs (Some errUhOh));
    (Some errUhOh, Is noTable noIs (Some errUhOh));
    (Some errOther, Is noTable noIs (Some errUhOh));
    (Some errUhOh, Contains noTable "uh");
    (Some errUhOh, Contains noTable "foobar");
    (None, Contains noTable EmptyString);
    (Some err42, want42);
    (Some err43, want42);
    (Some errUhOh, want42) ].

(** What the loop of [ExampleDiff] prints for a row. *)
Definition run (tt : error * Want) : outcome string :=
  diff <- Diff noTable (fst tt) (snd tt) ;;
  match diff with
  | EmptyString => Ret "<empty>"
  | String _ _ => Ret diff
  end.

(** The [// Output:] comment of [ExampleDiff], without the row titles. *)
Definition output : list (outcome string) :=
  [ Ret "<empty>";
    Ret "got error uh oh; want nil";
    Ret "<empty>";
    Ret "got error wrapped(uh oh); want == uh oh";
    Ret "<empty>";
    Ret "<empty>";
    Ret "got error something else; want error that Is() uh oh";
    Ret "<empty>";
    Ret ("got error uh oh; want containing substring "
         ++ String GoString.dquote ("foobar" ++ String GoString.dquote EmptyString));
    Ret ("got error <nil>; want containing substring "
         ++ String GoString.dquote (String GoString.dquote EmptyString));
    Ret "<empty>";
    Ret "got error val 43 is not good; want 42 (of course)";
    Ret "got error uh oh; want error tree containing type testerr_test.myError" ].

End Example.

(** ** An error type with its own [Is] method *)
Module Custom.

(** [type codeError struct{ codes []int }], not comparable, with
    [func (codeError) Is(target error) bool] reporting whether the target
    is a [codeError] too. *)
Definition codeError : gotype :=
  {| tname := "testerr_test.codeError"; tcomparable := false |}.

Definition isTable (t : gotype) : option (error_val -> error_val -> bool) :=
  if gotype_eqb t codeError
  then Some (fun _ target => gotype_eqb (TypeOf target) codeError)
  else None.

Definition errCodeA : error_val :=
  Plain {| dtype := codeError; dval := VStruct [VOpaque]; dmsg := "codes [1 2]" |}.
Definition errCodeB : error_val :=
  Plain {| dtype := codeError; dval := VStruct [VOpaque]; dmsg := "codes [3]" |}.

(** [type boxError struct{ v any }]: a comparable type; here [v] holds a
    slice, [boxError{[]int{1}}]. *)
Definition sliceOfInt : gotype := {| tname := "[]int"; tcomparable := false |}.
Definition boxError : gotype :=
  {| tname := "testerr_test.boxError"; tcomparable := true |}.
Definition errBox : error_val :=
  Plain {| dtype := boxError; dval := VStruct [VIface sliceOfInt VOpaque];
           dmsg := "box [1]" |}.

(** [type ratioError float64], here [ratioError(math.NaN())]. *)
Definition ratioError : gotype :=
  {| tname := "testerr_test.ratioError"; tcomparable := true |}.
Definition errNaN : error_val :=
  Plain {| dtype := ratioError; dval := VNaN; dmsg := "ratio NaN" |}.

(** [fmt.Errorf("request failed: %w", errCodeB)]. *)
Definition errRequest : error_val :=
  Wraps {| dtype := Example.wrapError; dval := VScalar 12;
           dmsg := "request failed: codes [3]" |} (Some errCodeB).

End Custom.

(** ** The vocabulary of the specification *)

(** [sub] occurs in [s]. *)
Definition substring_of (sub s : string) : Prop :=
  exists pre post : string, s = pre ++ sub ++ post.

(** [x] is [e] or is reached from [e] by repeated unwrapping. *)
Inductive reaches : error_val -> error_val -> Prop :=
| reaches_self (e : error_val) : reaches e e
| reaches_unwrap (d : dyn) (e x : error_val) :
    reaches e x -> reaches (Wraps d (Some e)) x
| reaches_join (d : dyn) (es : list (option error_val)) (e x : error_val) :
    In (Some e) es -> reaches e x -> reaches (Joins d es) x.

(** One link of the chain matches the target for [errors.Is]: [==] says
    they are equal (which needs a target of comparable type), or the link's
    own [Is] method says so. *)
Definition link_matches
    (IsMethod : gotype -> option (error_val -> error_val -> bool))
    (x target : error_val) : bool :=
  match go_eq (Some x) (Some target) with
  | Ret true => true
  | _ => false
  end
  || match IsMethod (TypeOf x) with
     | Some m => m x target
     | None => false
     end.

(** Comparing the target with any error of the chain of [e] does not
    panic. No comparison is made with a target of uncomparable type. *)
Definition quiet (target e : error_val) : Prop :=
  tcomparable (TypeOf target) = true ->
  forall y, reaches e y -> go_eq (Some y) (Some target) <> Panic.

(** The first element of [l] on which [f] returns true, if [f] returns on
    all the elements before it. *)
Fixpoint any_ok {A : Type} (f : A -> outcome bool) (l : list A) : outcome bool :=
  match l with
  | [] => Ret false
  | a :: l' => found <- f a ;; if (found : bool) then Ret true else any_ok f l'
  end.

(** What [is_] does below the error it is looking at. *)
Definition is_below
    (IsMethod : gotype -> option (error_val -> error_val -> bool))
    (err target : error_val) : outcome bool :=
  match err with
  | Plain _ => Ret false
  | Wraps _ None => Ret false
  | Wraps _ (Some e) => is_ IsMethod e target (tcomparable (TypeOf target))
  | Joins _ es =>
      any_ok (fun o => match o with
                       | Some e => is_ IsMethod e target (tcomparable (TypeOf target))
                       | None => Ret false
                       end) es
  end.

(** The comparison of the fields of two structs, in source order. *)
Fixpoint fields_eq (fs gs : list value) : outcome bool :=
  match fs, gs with
  | [], [] => Ret true
  | f :: fs', g :: gs' =>
      eq <- value_eq f g ;;
      if (eq : bool) then fields_eq fs' gs' else Ret false
  | _, _ => Ret false
  end.

(** A value on which [==] behaves as equality: no NaN in it, and every
    interface in it holds a value of comparable type. *)
Fixpoint regular (v : value) : bool :=
  match v with
  | VScalar _ => true
  | VNaN => false
  | VNil => true
  | VIface t v' => tcomparable t && regular v'
  | VStruct fs =>
      (fix all (l : list value) : bool :=
         match l with
         | [] => true
         | f :: l' => regular f && all l'
         end) fs
  | VOpaque => false
  end.

(** An error on which [==] behaves as equality: nil, or of comparable
    dynamic type with a regular value. *)
Definition regular_error (e : error) : bool :=
  match e with
  | None => true
  | Some x => tcomparable (TypeOf x) && regular (dval (header x))
  end.

(** Two errors are one and the same: both nil, or of the same dynamic type
    with the same value. *)
Definition identical (a b : error) : Prop :=
  match a, b with
  | None, None => True
  | Some x, Some y => TypeOf x = TypeOf y /\ dval (header x) = dval (header y)
  | _, _ => False
  end.

(** A format in which no directive has an explicit argument index;
    [after] tells that the previous byte was the [%] of a directive. *)
Fixpoint sequential_from (after : bool) (format : string) : bool :=
  match format with
  | EmptyString => true
  | String c rest =>
      if after then negb (Ascii.eqb c "[") && sequential_from false rest
      else sequential_from (Ascii.eqb c "%") rest
  end.

Definition sequential (format : string) : bool := sequential_from false format.

(** One link of the chain satisfies [errors.As] for the target type [T]:
    it is assignable to [T] and is the value extracted, or its own [As]
    method supplies one. *)
Definition as_link
    (AsMethod : gotype -> option (error_val -> target_type -> option error_val))
    (x : error_val) (T : target_type) : option error_val :=
  if AssignableTo (TypeOf x) T then Some x
  else match AsMethod (TypeOf x) with
       | Some m => m x T
       | None => None
       end.

(** The first element of [l] on which [f] succeeds. *)
Fixpoint first_some {A B : Type} (f : A -> option B) (l : list A) : option B :=
  match l with
  | [] => None
  | a :: l' =>
      match f a with
      | Some b => Some b
      | None => first_some f l'
      end
  end.

(** What [as_] does below the error it is looking at. *)
Definition as_below
    (AsMethod : gotype -> option (error_val -> target_type -> option error_val))
    (err : error_val) (T : target_type) : option error_val :=
  match err with
  | Plain _ => None
  | Wraps _ None => None
  | Wraps _ (Some e) => as_ AsMethod e T
  | Joins _ es =>
      first_some (fun o => match o with
                           | Some e => as_ AsMethod e T
                           | None => None
                           end) es
  end.

(** What [As] returns once [match] has described the extracted error: the
    empty string for an empty description, the diagnostic otherwise. *)
Definition verdict (got : error) (description : string) : outcome string :=
  match description with
  | EmptyString => Ret EmptyString
  | String _ _ =>
      Ret ("got error " ++ render got ++ "; want " ++ description)
  end.

(** A format without any [%]. *)
Fixpoint percent_free (s : string) : bool :=
  match s with
  | EmptyString => true
  | String c s' => negb (Ascii.eqb c "%") && percent_free s'
  end.

(** Printable ASCII text without a double quote or a backslash. *)
Fixpoint plain_ascii (s : string) : bool :=
  match s with
  | EmptyString => true
  | String c s' =>
      let b := GoString.byte_of c in
      (32 <=? b) && (b <=? 126) && negb (b =? 34) && negb (b =? 92)
      && plain_ascii s'
  end.

(** A diagnostic in the canonical form of [DiffMessage] for [got]. *)
Definition canonical (got : error) (d : string) : Prop :=
  exists description : string,
    d = "got error " ++ render got ++ "; want " ++ description.

(** The expectations the package supplies: none at all, or one built by
    [Equals], [Is], [Contains] or [As]. *)
Inductive builtin
    (tbl : Z -> bool)
    (IsMethod : gotype -> option (error_val -> error_val -> bool))
    (AsMethod : gotype -> option (error_val -> target_type -> option error_val))
  : Want -> Prop :=
| builtin_nil : builtin tbl IsMethod AsMethod None
| builtin_Equals (w : error) : builtin tbl IsMethod AsMethod (Equals tbl w)
| builtin_Is (t : error) : builtin tbl IsMethod AsMethod (Is tbl IsMethod t)
| builtin_Contains (s : string) : builtin tbl IsMethod AsMethod (Contains tbl s)
| builtin_As (T : target_type) (match_ : error_val -> string) :
    builtin tbl IsMethod AsMethod (As tbl AsMethod T match_).

(** * Properties *)

Section error_val_induction.

Variable P : error_val -> Prop.
Hypothesis HPlain : forall d, P (Plain d).
Hypothesis HWrapsNil : forall d, P (Wraps d None).
Hypothesis HWraps : forall d e, P e -> P (Wraps d (Some e)).
Hypothesis HJoins :
  forall d es, (forall e, In (Some e) es -> P e) -> P (Joins d es).

Lemma error_val_ind : forall e, P e.
Proof.
  fix IH 1. intros [d|d [e|]|d es].
  - apply HPlain.
  - apply HWraps, IH.
  - apply HWrapsNil.
  - apply HJoins. induction es as [|[e'|] es IHes]; intros e H.
    + destruct H.
    + destruct H as [H|H]; [|exact (IHes e H)].
      injection H as <-. apply IH.
    + destruct H as [H|H]; [discriminate H | exact (IHes e H)].
Qed.

End error_val_induction.

Lemma HasPrefix_spec (p s : string) :
  GoString.HasPrefix s p = true <-> exists post, s = p ++ post.
Proof.
  revert s. induction p as [|c p IH]; intros s; cbn.
  - split; [intros _; now exists s | now destruct s].
  - destruct s as [|c' s]; cbn.
    + split; [discriminate | intros [post H]; discriminate H].
    + rewrite andb_true_iff, Ascii.eqb_eq, IH. split.
      * intros [-> [post ->]]. now exists post.
      * intros [post H]. injection H as -> ->. split; [reflexivity | now exists post].
Qed.

(** [strings.Contains] decides occurrence. *)
Lemma Contains_spec (sub s : string) :
  GoString.Contains s sub = true <-> substring_of sub s.
Proof.
  unfold substring_of. induction s as [|c s IH].
  - cbn [GoString.Contains]. rewrite orb_false_r, HasPrefix_spec. split.
    + intros [post H]. now exists EmptyString, post.
    + intros [[|x pre] [post H]]; [now exists post | discriminate H].
  - cbn [GoString.Contains]. rewrite orb_true_iff, HasPrefix_spec, IH. split.
    + intros [[post H]|[pre [post H]]].
      * now exists EmptyString, post.
      * exists (String c pre), post. cbn. now rewrite H.
    + intros [[|x pre] [post H]].
      * left. now exists post.
      * right. cbn in H. injection H as _ H. now exists pre, post.
Qed.

Lemma append_nil_r (s : string) : s ++ EmptyString = s.
Proof. induction s as [|c s IH]; cbn; [reflexivity | now rewrite IH]. Qed.

Lemma bind_no_panic {A B : Type} (m : outcome A) (f : A -> outcome B) :
  m <> Panic -> (forall x, f x <> Panic) -> bind m f <> Panic.
Proof. destruct m; cbn; intros Hm Hf; [apply Hf | now elim Hm | discriminate]. Qed.

Section Formatter.

Variable isPrintTable : Z -> bool.

Lemma printArg_v (e : error) : printArg isPrintTable (AErr e) "v" = Ret (render e).
Proof. destruct e as [v|]; reflexivity. Qed.

(** The format that [DiffMessage] builds first. *)
Lemma DiffMessage_format (wantFormat : string) :
  Sprintf isPrintTable "got error %%v; want %s" [AStr wantFormat]
  = Ret ("got error %v; want " ++ wantFormat).
Proof. unfold Sprintf. cbn. now rewrite append_nil_r. Qed.

(** [DiffMessage] prints [got], then goes through the wanted description
    with [got] still first in the argument list. *)
Lemma DiffMessage_unfold (got : error) (wantFormat : string) (a : list any) :
  DiffMessage isPrintTable got wantFormat a
  = (r <- doPrintf isPrintTable wantFormat PText (AErr got :: a) 1 false ;;
     Ret ("got error " ++ render got ++ "; want " ++ r)).
Proof.
  unfold DiffMessage. rewrite DiffMessage_format. unfold Sprintf. cbn.
  destruct (doPrintf isPrintTable wantFormat PText (AErr got :: a) 1 false)
    as [r| |], got as [e|]; reflexivity.
Qed.

(** Without explicit argument indexes, the description is formatted as
    it would be on its own: the argument in front only shifts the rest. *)
Lemma doPrintf_shift (x : any) (a : list any) (format : string) :
  forall (after : bool) (n : nat),
    sequential_from after format = true ->
    doPrintf isPrintTable format (if after then PVerb else PText) (x :: a) (S n) false
    = doPrintf isPrintTable format (if after then PVerb else PText) a n false.
Proof.
  induction format as [|c format IH]; intros after n H.
  - destruct after; reflexivity.
  - destruct after; cbn [sequential_from] in H.
    + apply andb_true_iff in H as [Hc H]. apply negb_true_iff in Hc.
      cbn [doPrintf]. unfold is_verb at 1 3. rewrite Hc.
      destruct (outside_fragment c); [reflexivity|].
      destruct (is_verb c "%"); [now rewrite (IH false n H)|].
      cbn [negb nth_error].
      destruct (nth_error a n) as [arg|]; [|now rewrite (IH false n H)].
      destruct (printArg isPrintTable arg c); try reflexivity.
      cbn [bind]. now rewrite (IH false (S n) H).
    + cbn [doPrintf]. unfold is_verb. unfold is_verb in IH.
      destruct (Ascii.eqb c "%").
      * exact (IH true n H).
      * now rewrite (IH false n H).
Qed.

Lemma DiffMessage_sequential (got : error) (wantFormat : string) (a : list any) :
  sequential wantFormat = true ->
  DiffMessage isPrintTable got wantFormat a
  = (r <- Sprintf isPrintTable wantFormat a ;;
     Ret ("got error " ++ render got ++ "; want " ++ r)).
Proof.
  intros H. rewrite DiffMessage_unfold. unfold Sprintf.
  now rewrite (doPrintf_shift (AErr got) a wantFormat false 0 H).
Qed.

Lemma printArg_no_panic (arg : any) (verb : ascii) :
  printArg isPrintTable arg verb <> Panic.
Proof.
  destruct arg as [[e|]|s|z|t]; cbn;
    repeat match goal with
           | |- context [if ?b then _ else _] => destruct b
           end; discriminate.
Qed.

Lemma extra_no_panic (a : list any) : extra isPrintTable a <> Panic.
Proof.
  assert (Harg : forall x, extra_arg isPrintTable x <> Panic).
  { intros [[e|]|s|z|t]; cbn; try discriminate;
      apply bind_no_panic; try discriminate; apply printArg_no_panic. }
  assert (Hargs : forall l, extra_args isPrintTable l <> Panic).
  { induction l as [|x l IH]; [discriminate|].
    destruct l as [|y l]; [apply Harg|].
    change (extra_args isPrintTable (x :: y :: l))
      with (v <- extra_arg isPrintTable x ;;
            r <- extra_args isPrintTable (y :: l) ;; Ret (v ++ ", " ++ r)).
    apply bind_no_panic; [apply Harg|]. intros v.
    apply bind_no_panic; [apply IH|]. discriminate. }
  destruct a as [|x l]; [discriminate|].
  apply bind_no_panic; [apply Hargs|]. discriminate.
Qed.

Lemma finish_no_panic (a : list any) (n : nat) (reordered : bool) :
  finish isPrintTable a n reordered <> Panic.
Proof. unfold finish. destruct reordered; [discriminate | apply extra_no_panic]. Qed.

(** [Sprintf] recovers from whatever goes wrong while it formats: it never
    panics. *)
Lemma doPrintf_no_panic (format : string) :
  forall st a n reordered, doPrintf isPrintTable format st a n reordered <> Panic.
Proof.
  induction format as [|c format IH]; intros st a n reordered.
  - destruct st; cbn; try discriminate; try apply finish_no_panic;
      (apply bind_no_panic; [apply finish_no_panic | discriminate]).
  - assert (Hverb : forall good,
      (if outside_fragment c then Unsupported
       else if is_verb c "%" then
         r <- doPrintf isPrintTable format PText a n reordered ;; Ret (String "%" r)
       else if negb good then
         r <- doPrintf isPrintTable format PText a n reordered ;;
         Ret ("%!" ++ String c "(BADINDEX)" ++ r)
       else
         match nth_error a n with
         | None =>
             r <- doPrintf isPrintTable format PText a n reordered ;;
             Ret ("%!" ++ String c "(MISSING)" ++ r)
         | Some arg =>
             v <- printArg isPrintTable arg c ;;
             r <- doPrintf isPrintTable format PText a (S n) reordered ;; Ret (v ++ r)
         end) <> Panic).
    { intros good. destruct (outside_fragment c); [discriminate|].
      destruct (is_verb c "%"); [apply bind_no_panic; [apply IH | discriminate]|].
      destruct (negb good); [apply bind_no_panic; [apply IH | discriminate]|].
      destruct (nth_error a n) as [arg|].
      - apply bind_no_panic; [apply printArg_no_panic|]. intros v.
        apply bind_no_panic; [apply IH | discriminate].
      - apply bind_no_panic; [apply IH | discriminate]. }
    destruct st as [| |k seen|good]; cbn [doPrintf].
    + destruct (is_verb c "%"); [apply IH|].
      apply bind_no_panic; [apply IH | discriminate].
    + destruct (is_verb c "["); [apply IH | apply Hverb].
    + destruct (is_verb c "]"); [apply IH|].
      destruct (digit_of c); [apply IH | discriminate].
    + apply Hverb.
Qed.

Lemma Sprintf_no_panic (format : string) :
  forall a, Sprintf isPrintTable format a <> Panic.
Proof. intros a. apply doPrintf_no_panic. Qed.

(** The diagnostics of the package, one per call site of [DiffMessage]. *)
Lemma DiffMessage_nil (got : error) :
  DiffMessage isPrintTable got "nil" []
  = Ret ("got error " ++ render got ++ "; want nil").
Proof. rewrite DiffMessage_unfold. reflexivity. Qed.

Lemma DiffMessage_Is (got target : error) :
  DiffMessage isPrintTable got "error that Is() %v" [AErr target]
  = Ret ("got error " ++ render got ++ "; want error that Is() " ++ render target).
Proof.
  rewrite DiffMessage_unfold. cbn.
  destruct target as [t|]; cbn; now rewrite ?append_nil_r.
Qed.

Lemma DiffMessage_Equals (got want : error) :
  DiffMessage isPrintTable got "== %v" [AErr want]
  = Ret ("got error " ++ render got ++ "; want == " ++ render want).
Proof.
  rewrite DiffMessage_unfold. cbn.
  destruct want as [t|]; cbn; now rewrite ?append_nil_r.
Qed.

Lemma DiffMessage_Contains (got : error) (substr : string) :
  DiffMessage isPrintTable got "containing substring %q" [AStr substr]
  = Ret ("got error " ++ render got ++ "; want containing substring "
         ++ GoString.Quote isPrintTable substr).
Proof. rewrite DiffMessage_unfold. cbn. now rewrite append_nil_r. Qed.

Lemma DiffMessage_As_type (got : error) (T : target_type) :
  DiffMessage isPrintTable got "error tree containing type %T" [zero_target T]
  = Ret ("got error " ++ render got ++ "; want error tree containing type "
         ++ type_string (zero_target T)).
Proof.
  rewrite DiffMessage_unfold. cbn.
  destruct T as [t|name impl]; cbn; now rewrite ?append_nil_r.
Qed.

Lemma DiffMessage_As_match (got : error) (d : string) :
  DiffMessage isPrintTable got "%s" [AStr d]
  = Ret ("got error " ++ render got ++ "; want " ++ d).
Proof. rewrite DiffMessage_unfold. cbn. now rewrite append_nil_r. Qed.

End Formatter.

Section value_induction.

Variable P : value -> Prop.
Hypothesis HScalar : forall z, P (VScalar z).
Hypothesis HNaN : P VNaN.
Hypothesis HNil : P VNil.
Hypothesis HIface : forall t v, P v -> P (VIface t v).
Hypothesis HStruct : forall fs, (forall f, In f fs -> P f) -> P (VStruct fs).
Hypothesis HOpaque : P VOpaque.

Lemma value_ind : forall v, P v.
Proof.
  fix IH 1. intros [z| | |t v|fs|].
  - apply HScalar.
  - apply HNaN.
  - apply HNil.
  - apply HIface, IH.
  - apply HStruct. induction fs as [|f fs IHfs]; intros g H.
    + destruct H.
    + destruct H as [H|H]; [|exact (IHfs g H)]. rewrite <- H. apply IH.
  - apply HOpaque.
Qed.

End value_induction.

(** ** The comparison [==] *)

Lemma gotype_eqb_eq (a b : gotype) : gotype_eqb a b = true <-> a = b.
Proof.
  unfold gotype_eqb. rewrite andb_true_iff, String.eqb_eq. split.
  - destruct a as [na ca], b as [nb cb]. cbn. intros [-> H].
    now rewrite (eqb_prop _ _ H).
  - intros ->. split; [reflexivity | apply eqb_reflx].
Qed.

Lemma gotype_eqb_sym (a b : gotype) : gotype_eqb a b = gotype_eqb b a.
Proof.
  destruct (gotype_eqb a b) eqn:H1, (gotype_eqb b a) eqn:H2; try reflexivity.
  - apply gotype_eqb_eq in H1. subst b.
    now rewrite (proj2 (gotype_eqb_eq a a) eq_refl) in H2.
  - apply gotype_eqb_eq in H2. subst b.
    now rewrite (proj2 (gotype_eqb_eq a a) eq_refl) in H1.
Qed.

Lemma value_eq_struct (fs gs : list value) :
  value_eq (VStruct fs) (VStruct gs) = fields_eq fs gs.
Proof. reflexivity. Qed.

Lemma regular_struct (fs : list value) :
  regular (VStruct fs) = forallb regular fs.
Proof.
  induction fs as [|f fs IH]; [reflexivity|].
  cbn [regular forallb]. cbn [regular] in IH. now rewrite IH.
Qed.

(** [==] is symmetric, panics included. *)
Lemma value_eq_sym (a : value) : forall b, value_eq a b = value_eq b a.
Proof.
  pattern a; apply value_ind; clear a.
  - intros x [y| | |t v|gs|]; cbn; try reflexivity. now rewrite Z.eqb_sym.
  - intros [y| | |t v|gs|]; reflexivity.
  - intros [y| | |t v|gs|]; reflexivity.
  - intros t v IH [y| | |t' v'|gs|]; cbn [value_eq]; try reflexivity.
    rewrite (gotype_eqb_sym t t').
    destruct (gotype_eqb t' t) eqn:Ht; [|reflexivity].
    apply gotype_eqb_eq in Ht. subst t'.
    destruct (tcomparable t); [apply IH | reflexivity].
  - intros fs IH [y| | |t' v'|gs|]; try reflexivity.
    rewrite !value_eq_struct. revert gs.
    induction fs as [|f fs IHfs]; intros [|g gs]; try reflexivity.
    cbn [fields_eq]. rewrite (IH f (or_introl eq_refl) g).
    destruct (value_eq g f) as [[|]| |]; cbn [bind]; try reflexivity.
    apply IHfs. intros f' Hf'. apply IH. now right.
  - intros [y| | |t v|gs|]; reflexivity.
Qed.

(** What [==] accepts is one and the same value. *)
Lemma value_eq_true (a : value) : forall b, value_eq a b = Ret true -> a = b.
Proof.
  pattern a; apply value_ind; clear a.
  - intros x [y| | |t v|gs|]; cbn; try discriminate.
    intros [= H]. apply Z.eqb_eq in H. now subst.
  - intros b; discriminate.
  - intros [y| | |t v|gs|]; cbn; try discriminate. reflexivity.
  - intros t v IH [y| | |t' v'|gs|]; cbn [value_eq]; try discriminate.
    destruct (gotype_eqb t t') eqn:Ht; [|discriminate].
    apply gotype_eqb_eq in Ht. subst t'.
    destruct (tcomparable t); [|discriminate].
    intros H. now rewrite (IH _ H).
  - intros fs IH [y| | |t' v'|gs|]; try discriminate.
    rewrite value_eq_struct. intros H. f_equal. revert gs H.
    induction fs as [|f fs IHfs]; intros [|g gs]; try discriminate; [reflexivity|].
    cbn [fields_eq]. destruct (value_eq f g) as [[|]| |] eqn:Hfg; cbn [bind];
      try discriminate.
    intros H. rewrite (IH f (or_introl eq_refl) g Hfg). f_equal.
    apply IHfs; [|exact H]. intros f' Hf'. apply IH. now right.
  - intros [y| | |t v|gs|]; discriminate.
Qed.

(** On a regular value [==] returns, and accepts the value itself. *)
Lemma value_eq_regular (a : value) :
  regular a = true ->
  value_eq a a = Ret true /\ forall b, exists r, value_eq a b = Ret r.
Proof.
  pattern a; apply value_ind; clear a.
  - intros x _. split; [cbn; now rewrite Z.eqb_refl|].
    intros [y| | |t v|gs|]; cbn; now eexists.
  - discriminate.
  - intros _. split; [reflexivity|]. intros [y| | |t v|gs|]; cbn; now eexists.
  - intros t v IH H. cbn [regular] in H. apply andb_true_iff in H as [Hc Hv].
    destruct (IH Hv) as [Hrefl Hret]. split.
    + cbn [value_eq]. now rewrite (proj2 (gotype_eqb_eq t t) eq_refl), Hc.
    + intros [y| | |t' v'|gs|]; cbn [value_eq]; try now eexists.
      destruct (gotype_eqb t t'); [|now eexists]. rewrite Hc. apply Hret.
  - intros fs IH H. rewrite regular_struct in H.
    rewrite forallb_forall in H. split.
    + rewrite value_eq_struct. induction fs as [|f fs IHfs]; [reflexivity|].
      cbn [fields_eq].
      rewrite (proj1 (IH f (or_introl eq_refl) (H f (or_introl eq_refl)))).
      cbn [bind]. apply IHfs.
      * intros f' Hf'. apply IH. now right.
      * intros f' Hf'. apply H. now right.
    + intros [y| | |t' v'|gs|]; try (cbn; now eexists).
      rewrite value_eq_struct. revert gs.
      induction fs as [|f fs IHfs]; intros [|g gs]; try (cbn; now eexists).
      cbn [fields_eq].
      destruct (proj2 (IH f (or_introl eq_refl) (H f (or_introl eq_refl))) g)
        as [[|] ->]; cbn [bind]; [|now eexists].
      apply IHfs.
      * intros f' Hf'. apply IH. now right.
      * intros f' Hf'. apply H. now right.
  - discriminate.
Qed.

(** Only a regular value is accepted by [==] as itself. *)
Lemma value_eq_refl_regular (a : value) :
  value_eq a a = Ret true -> regular a = true.
Proof.
  pattern a; apply value_ind; clear a; try discriminate; try reflexivity.
  - intros t v IH. cbn [value_eq regular].
    rewrite (proj2 (gotype_eqb_eq t t) eq_refl).
    destruct (tcomparable t); [|discriminate]. exact IH.
  - intros fs IH. rewrite value_eq_struct, regular_struct.
    induction fs as [|f fs IHfs]; [reflexivity|].
    cbn [fields_eq forallb].
    destruct (value_eq f f) as [[|]| |] eqn:Hf; cbn [bind]; try discriminate.
    intros H. rewrite (IH f (or_introl eq_refl) Hf). cbn [andb].
    apply IHfs; [|exact H]. intros f' Hf'. apply IH. now right.
Qed.

Lemma value_eq_supported (a : value) : forall b, value_eq a b <> Unsupported.
Proof.
  pattern a; apply value_ind; clear a.
  - intros x [y| | |t v|gs|]; discriminate.
  - intros b; discriminate.
  - intros [y| | |t v|gs|]; discriminate.
  - intros t v IH [y| | |t' v'|gs|]; cbn [value_eq]; try discriminate.
    destruct (gotype_eqb t t'); [|discriminate].
    destruct (tcomparable t); [apply IH | discriminate].
  - intros fs IH [y| | |t' v'|gs|]; try discriminate.
    rewrite value_eq_struct. revert gs.
    induction fs as [|f fs IHfs]; intros [|g gs]; try discriminate.
    cbn [fields_eq]. pose proof (IH f (or_introl eq_refl) g) as Hf.
    destruct (value_eq f g) as [[|]| |]; cbn [bind]; try discriminate;
      [|now elim Hf].
    apply IHfs. intros f' Hf'. apply IH. now right.
  - intros [y| | |t v|gs|]; discriminate.
Qed.

Lemma go_eq_supported (a b : error) : go_eq a b <> Unsupported.
Proof.
  destruct a as [x|], b as [y|]; cbn; try discriminate.
  destruct (gotype_eqb (TypeOf x) (TypeOf y)); [|discriminate].
  destruct (tcomparable (TypeOf x)); [apply value_eq_supported | discriminate].
Qed.

Lemma go_eq_sym (a b : error) : go_eq a b = go_eq b a.
Proof.
  destruct a as [x|], b as [y|]; cbn; try reflexivity.
  rewrite (gotype_eqb_sym (TypeOf x) (TypeOf y)).
  destruct (gotype_eqb (TypeOf y) (TypeOf x)) eqn:Ht; [|reflexivity].
  apply gotype_eqb_eq in Ht. rewrite Ht.
  destruct (tcomparable (TypeOf x)); [apply value_eq_sym | reflexivity].
Qed.

(** What [==] accepts is one and the same error, of comparable type. *)
Lemma go_eq_true (a b : error) :
  go_eq a b = Ret true -> identical a b /\ forall y, b = Some y -> tcomparable (TypeOf y) = true.
Proof.
  destruct a as [x|], b as [y|]; cbn; try discriminate.
  - destruct (gotype_eqb (TypeOf x) (TypeOf y)) eqn:Ht; [|discriminate].
    apply gotype_eqb_eq in Ht.
    destruct (tcomparable (TypeOf x)) eqn:Hc; [|discriminate].
    intros H. split; [split; [exact Ht | now apply value_eq_true]|].
    intros y' [= <-]. now rewrite <- Ht.
  - intros _. split; [exact I | discriminate].
Qed.

(** On a regular error [==] returns, and accepts whatever is identical. *)
Lemma go_eq_regular (a b : error) :
  regular_error b = true ->
  (exists r, go_eq a b = Ret r) /\ (identical a b -> go_eq a b = Ret true).
Proof.
  destruct a as [x|], b as [y|]; cbn [regular_error go_eq identical].
  - intros H. apply andb_true_iff in H as [Hc Hv].
    destruct (value_eq_regular _ Hv) as [Hrefl Hret].
    destruct (gotype_eqb (TypeOf x) (TypeOf y)) eqn:Ht.
    + apply gotype_eqb_eq in Ht. rewrite Ht, Hc. split.
      * destruct (Hret (dval (header x))) as [r Hr].
        exists r. now rewrite value_eq_sym.
      * intros [_ ->]. exact Hrefl.
    + split; [now eexists|]. intros [Hty _].
      now rewrite (proj2 (gotype_eqb_eq _ _) Hty) in Ht.
  - intros _. split; [now eexists | intros []].
  - intros _. split; [now eexists | intros []].
  - intros _. split; [now eexists | reflexivity].
Qed.

Section Chain.

Variable IsMethod : gotype -> option (error_val -> error_val -> bool).

Lemma any_ok_true {A : Type} (f : A -> outcome bool) (l : list A) :
  any_ok f l = Ret true -> exists a, In a l /\ f a = Ret true.
Proof.
  induction l as [|a l IH]; cbn [any_ok]; [discriminate|].
  destruct (f a) as [[|]| |] eqn:Ha; cbn [bind]; try discriminate.
  - intros _. exists a. split; [now left | exact Ha].
  - intros H. destruct (IH H) as [x [Hx Hf]]. exists x. split; [now right | exact Hf].
Qed.

Lemma any_ok_ret {A : Type} (f : A -> outcome bool) (Q : A -> Prop) (l : list A) :
  (forall a, In a l -> exists r, f a = Ret r /\ (Q a -> r = true)) ->
  exists r, any_ok f l = Ret r /\ ((exists a, In a l /\ Q a) -> r = true).
Proof.
  induction l as [|a l IH]; intros H; cbn [any_ok].
  - exists false. split; [reflexivity | intros [a [[] _]]].
  - destruct (H a (or_introl eq_refl)) as [[|] [Ha Hq]]; rewrite Ha; cbn [bind].
    + exists true. split; reflexivity.
    + destruct IH as [r [Hr Hex]]; [intros x Hx; apply H; now right|].
      exists r. split; [exact Hr|].
      intros [x [[<-|Hx] HQ]]; [discriminate (Hq HQ) | apply Hex; now exists x].
Qed.

Lemma is_unfold (err target : error_val) :
  is_ IsMethod err target (tcomparable (TypeOf target))
  = (eq <- (if tcomparable (TypeOf target)
            then go_eq (Some err) (Some target) else Ret false) ;;
     if (eq : bool) || match IsMethod (TypeOf err) with
                       | Some m => m err target
                       | None => false
                       end
     then Ret true else is_below IsMethod err target).
Proof.
  destruct err as [d|d [e|]|d es]; cbn [is_ is_below];
    destruct (if tcomparable (TypeOf target) then _ else _) as [[|]| |];
    cbn [bind orb]; try reflexivity;
    match goal with
    | |- context [IsMethod ?ty] => destruct (IsMethod ty) as [m|]
    end; try reflexivity;
    try match goal with
        | |- (if ?c then _ else _) = _ => destruct c; try reflexivity
        end.
  all: induction es as [|[e|] es IH]; cbn [any_ok bind]; [reflexivity | | exact IH].
  all: destruct (is_ IsMethod e target (tcomparable (TypeOf target))) as [[|]| |];
    cbn [bind]; try reflexivity; exact IH.
Qed.

(** The comparison that [is_] makes at one link agrees with [link_matches]
    when it returns. *)
Lemma link_step (x target : error_val) (r : bool) :
  (if tcomparable (TypeOf target) then go_eq (Some x) (Some target) else Ret false)
  = Ret r ->
  r || match IsMethod (TypeOf x) with
       | Some m => m x target
       | None => false
       end
  = link_matches IsMethod x target.
Proof.
  unfold link_matches. destruct (tcomparable (TypeOf target)) eqn:Hc.
  - intros ->. now destruct r.
  - intros [= <-]. destruct (go_eq (Some x) (Some target)) as [[|]| |] eqn:H;
      try reflexivity.
    apply go_eq_true in H as [_ H]. now rewrite (H target eq_refl) in Hc.
Qed.

Lemma reaches_inv (e x : error_val) :
  reaches e x ->
  x = e \/
  match e with
  | Plain _ => False
  | Wraps _ None => False
  | Wraps _ (Some e') => reaches e' x
  | Joins _ es => exists e', In (Some e') es /\ reaches e' x
  end.
Proof.
  intros H. destruct H as [e|d e x H|d es e x Hin H].
  - now left.
  - now right.
  - right. now exists e.
Qed.

(** When [is_] finds a match, a reachable link matches. *)
Lemma is_sound (target err : error_val) :
  is_ IsMethod err target (tcomparable (TypeOf target)) = Ret true ->
  exists x, reaches err x /\ link_matches IsMethod x target = true.
Proof.
  pattern err; apply error_val_ind; clear err;
    [intros d | intros d | intros d e IH | intros d es IH];
    rewrite is_unfold;
    (destruct (if tcomparable (TypeOf target) then _ else _) as [r| |] eqn:Hg;
     cbn [bind]; try discriminate);
    rewrite (link_step _ _ _ Hg);
    match goal with
    | |- context [link_matches IsMethod ?x target] =>
        destruct (link_matches IsMethod x target) eqn:Hl;
          [intros _; exists x; split; [constructor | exact Hl] |]
    end; cbn [is_below]; try discriminate.
  - intros H. destruct (IH H) as [x [Hr Hx]].
    exists x. split; [now constructor | exact Hx].
  - intros H. apply any_ok_true in H as [[e|] [Hin He]]; [|discriminate He].
    destruct (IH e Hin He) as [x [Hr Hx]].
    exists x. split; [now apply reaches_join with e | exact Hx].
Qed.

(** When no comparison along the chain panics, [is_] returns, and finds a
    match if a reachable link matches. *)
Lemma is_quiet (target err : error_val) :
  quiet target err ->
  exists r, is_ IsMethod err target (tcomparable (TypeOf target)) = Ret r
    /\ ((exists x, reaches err x /\ link_matches IsMethod x target = true) ->
        r = true).
Proof.
  assert (Hguard : forall e, quiet target e ->
            exists r, (if tcomparable (TypeOf target)
                       then go_eq (Some e) (Some target) else Ret false) = Ret r).
  { intros e Hq. destruct (tcomparable (TypeOf target)) eqn:Hc; [|now eexists].
    pose proof (Hq Hc e (reaches_self e)) as Hp.
    pose proof (go_eq_supported (Some e) (Some target)) as Hs.
    destruct (go_eq (Some e) (Some target)); [now eexists | now elim Hp | now elim Hs]. }
  pattern err; apply error_val_ind; clear err;
    [intros d | intros d | intros d e IH | intros d es IH]; intros Hq;
    rewrite is_unfold; destruct (Hguard _ Hq) as [r Hg]; rewrite Hg; cbn [bind];
    rewrite (link_step _ _ _ Hg);
    match goal with
    | |- context [link_matches IsMethod ?x target] =>
        destruct (link_matches IsMethod x target) eqn:Hl;
          [exists true; split; reflexivity |]
    end; cbn [is_below].
  - exists false. split; [reflexivity|].
    intros [x [Hr Hx]]. apply reaches_inv in Hr as [->|[]]. congruence.
  - exists false. split; [reflexivity|].
    intros [x [Hr Hx]]. apply reaches_inv in Hr as [->|[]]. congruence.
  - destruct IH as [r' [Hr' Hex]].
    { intros Hc y Hy. apply Hq; [exact Hc | now constructor]. }
    exists r'. split; [exact Hr'|].
    intros [x [Hr Hx]]. apply reaches_inv in Hr as [->|Hr]; [congruence|].
    apply Hex. now exists x.
  - destruct (any_ok_ret
                (fun o => match o with
                          | Some e => is_ IsMethod e target (tcomparable (TypeOf target))
                          | None => Ret false
                          end)
                (fun o => match o with
                          | Some e => exists x, reaches e x
                                        /\ link_matches IsMethod x target = true
                          | None => False
                          end) es) as [r' [Hr' Hex]].
    { intros [e|] Hin.
      - apply (IH e Hin). intros Hc y Hy.
        apply Hq; [exact Hc | now apply reaches_join with e].
      - exists false. split; [reflexivity | intros []]. }
    exists r'. split; [exact Hr'|].
    intros [x [Hr Hx]]. apply reaches_inv in Hr as [->|[e [Hin Hr]]]; [congruence|].
    apply Hex. exists (Some e). split; [exact Hin | now exists x].
Qed.

End Chain.

Section Matchers.

Variable tbl : Z -> bool.
Variable IsMethod : gotype -> option (error_val -> error_val -> bool).
Variable AsMethod : gotype -> option (error_val -> target_type -> option error_val).

Lemma Equals_eval (want got : error) :
  call_ErrDiff (Equals tbl want) got
  = match go_eq got want with
    | Ret true => Ret EmptyString
    | Ret false => Ret ("got error " ++ render got ++ "; want == " ++ render want)
    | Panic => Panic
    | Unsupported => Unsupported
    end.
Proof.
  unfold call_ErrDiff, Equals, Func_Want, Func_ErrDiff; cbn [ErrDiff].
  destruct (go_eq got want) as [[|]| |]; cbn [bind]; try reflexivity.
  apply DiffMessage_Equals.
Qed.

Lemma Is_eval (target got : error) :
  call_ErrDiff (Is tbl IsMethod target) got
  = match errors_Is IsMethod got target with
    | Ret true => Ret EmptyString
    | Ret false =>
        Ret ("got error " ++ render got ++ "; want error that Is() "
             ++ render target)
    | Panic => Panic
    | Unsupported => Unsupported
    end.
Proof.
  unfold call_ErrDiff, Is, Func_Want, Func_ErrDiff; cbn [ErrDiff].
  destruct (errors_Is IsMethod got target) as [[|]| |]; cbn [bind];
    try reflexivity.
  apply DiffMessage_Is.
Qed.

Lemma Contains_eval (substr : string) (got : error) :
  call_ErrDiff (Contains tbl substr) got
  = if match got with
       | Some e => GoString.Contains (Error e) substr
       | None => false
       end
    then Ret EmptyString
    else Ret ("got error " ++ render got ++ "; want containing substring "
              ++ GoString.Quote tbl substr).
Proof.
  unfold call_ErrDiff, Contains, Func_Want, Func_ErrDiff; cbn [ErrDiff].
  destruct got as [e|]; [destruct (GoString.Contains (Error e) substr)|];
    try reflexivity; apply DiffMessage_Contains.
Qed.

Lemma As_eval (T : target_type) (match_ : error_val -> string) (got : error) :
  call_ErrDiff (As tbl AsMethod T match_) got
  = match errors_As AsMethod got T with
    | None =>
        Ret ("got error " ++ render got ++ "; want error tree containing type "
             ++ type_string (zero_target T))
    | Some target =>
        match match_ target with
        | EmptyString => Ret EmptyString
        | String _ _ as d => Ret ("got error " ++ render got ++ "; want " ++ d)
        end
    end.
Proof.
  unfold call_ErrDiff, As, Func_Want, Func_ErrDiff; cbn [ErrDiff].
  destruct (errors_As AsMethod got T) as [target|]; [|apply DiffMessage_As_type].
  destruct (match_ target) as [|c d]; [reflexivity | apply DiffMessage_As_match].
Qed.

(** Comparing anything with a target on which [==] behaves as equality
    does not panic. *)
Lemma quiet_regular (target err : error_val) :
  regular_error (Some target) = true -> quiet target err.
Proof.
  intros Hreg _ y _.
  destruct (proj1 (go_eq_regular (Some y) (Some target) Hreg)) as [r ->].
  discriminate.
Qed.

(** A target that [==] accepts as itself is found in every chain that
    reaches it and compares with it without a panic. *)
Lemma errors_Is_reaches (target err : error_val) :
  go_eq (Some target) (Some target) = Ret true ->
  reaches err target -> quiet target err ->
  errors_Is IsMethod (Some err) (Some target) = Ret true.
Proof.
  intros Hrefl Hr Hq. cbn [errors_Is].
  destruct (is_quiet IsMethod target err Hq) as [r [Hr' Hex]].
  rewrite Hr'. f_equal. apply Hex. exists target. split; [exact Hr|].
  unfold link_matches. now rewrite Hrefl.
Qed.

End Matchers.

Section Extraction.

Variable AsMethod : gotype -> option (error_val -> target_type -> option error_val).

Lemma as_unfold (err : error_val) (T : target_type) :
  as_ AsMethod err T
  = match as_link AsMethod err T with
    | Some v => Some v
    | None => as_below AsMethod err T
    end.
Proof.
  unfold as_link.
  destruct err as [d|d [e|]|d es]; cbn [as_ as_below];
    destruct (AssignableTo _ T); try reflexivity;
    match goal with
    | |- context [AsMethod ?ty] => destruct (AsMethod ty) as [m|]
    end; try reflexivity;
    try match goal with
        | |- match ?c with Some _ => _ | None => _ end = _ =>
            destruct c; try reflexivity
        end.
  all: induction es as [|[e|] es IH]; cbn [first_some]; [reflexivity | | exact IH].
  all: destruct (as_ AsMethod e T); [reflexivity | exact IH].
Qed.

Lemma first_some_None {A B : Type} (f : A -> option B) (l : list A) :
  first_some f l = None <-> forall a, In a l -> f a = None.
Proof.
  induction l as [|a l IH]; cbn.
  - split; [intros _ a [] | reflexivity].
  - destruct (f a) eqn:Ha.
    + split; [discriminate|]. intros H. rewrite <- Ha. apply H. now left.
    + rewrite IH. split.
      * intros H x [<-|Hx]; [exact Ha | now apply H].
      * intros H x Hx. apply H. now right.
Qed.

Lemma first_some_Some {A B : Type} (f : A -> option B) (l : list A) (b : B) :
  first_some f l = Some b -> exists a, In a l /\ f a = Some b.
Proof.
  induction l as [|a l IH]; cbn; [discriminate|].
  destruct (f a) eqn:Ha.
  - intros [= <-]. exists a. split; [now left | exact Ha].
  - intros H. destruct (IH H) as [x [Hx Hf]]. exists x. split; [now right | exact Hf].
Qed.

(** [as_] fails exactly when no reachable link satisfies it. *)
Lemma as_none (T : target_type) (err : error_val) :
  as_ AsMethod err T = None
  <-> forall x, reaches err x -> as_link AsMethod x T = None.
Proof.
  pattern err; apply error_val_ind; clear err;
    [intros d | intros d | intros d e IH | intros d es IH];
    rewrite as_unfold; cbn [as_below].
  - split.
    + intros H x Hr. apply reaches_inv in Hr as [->|[]].
      now destruct (as_link AsMethod (Plain d) T).
    + intros H. now rewrite (H _ (reaches_self _)).
  - split.
    + intros H x Hr. apply reaches_inv in Hr as [->|[]].
      now destruct (as_link AsMethod (Wraps d None) T).
    + intros H. now rewrite (H _ (reaches_self _)).
  - split.
    + intros H x Hr.
      destruct (as_link AsMethod (Wraps d (Some e)) T) eqn:Hl; [discriminate|].
      apply reaches_inv in Hr as [->|Hr]; [exact Hl|].
      now apply (proj1 IH H).
    + intros H. rewrite (H _ (reaches_self _)). apply IH.
      intros x Hr. apply H. now constructor.
  - split.
    + intros H x Hr.
      destruct (as_link AsMethod (Joins d es) T) eqn:Hl; [discriminate|].
      apply reaches_inv in Hr as [->|[e [Hin Hr]]]; [exact Hl|].
      rewrite first_some_None in H. specialize (H (Some e) Hin).
      now apply (proj1 (IH e Hin) H).
    + intros H. rewrite (H _ (reaches_self _)). apply first_some_None.
      intros [e|] Hin; [|reflexivity]. apply (IH e Hin).
      intros x Hr. apply H. now apply reaches_join with e.
Qed.

(** What [as_] extracts comes from a reachable link. *)
Lemma as_some (T : target_type) (v err : error_val) :
  as_ AsMethod err T = Some v ->
  exists x, reaches err x /\ as_link AsMethod x T = Some v.
Proof.
  pattern err; apply error_val_ind; clear err;
    [intros d | intros d | intros d e IH | intros d es IH];
    rewrite as_unfold; cbn [as_below];
    match goal with
    | |- context [as_link AsMethod ?x T] =>
        destruct (as_link AsMethod x T) as [v'|] eqn:Hl;
          [intros [= <-]; exists x; split; [constructor | exact Hl] |]
    end; try discriminate.
  - intros H. destruct (IH H) as [x [Hr Hx]].
    exists x. split; [now constructor | exact Hx].
  - intros H. apply first_some_Some in H as [[e|] [Hin He]]; [|discriminate He].
    destruct (IH e Hin He) as [x [Hr Hx]].
    exists x. split; [now apply reaches_join with e | exact Hx].
Qed.

End Extraction.

Section Claims.

Variable tbl : Z -> bool.
Variable IsMethod : gotype -> option (error_val -> error_val -> bool).
Variable AsMethod : gotype -> option (error_val -> target_type -> option error_val).

(** C1. Without a declared expectation ([want] is nil), [Diff] returns the
    empty string exactly when [got] is nil too; for a non-nil [got] it
    returns [DiffMessage(got, "nil")], the string
    "got error <rendering of got>; want nil". *)
Theorem Diff_nil_want (got : error) :
  (Diff tbl got None = Ret EmptyString <-> got = None)
  /\ (forall e : error_val,
        Diff tbl (Some e) None = DiffMessage tbl (Some e) "nil" []
        /\ Diff tbl (Some e) None = Ret ("got error " ++ Error e ++ "; want nil")).
Proof.
  split.
  - destruct got as [e|]; cbn [Diff].
    + rewrite DiffMessage_nil. split; discriminate.
    + split; reflexivity.
  - intros e. split; [reflexivity|]. cbn [Diff]. apply DiffMessage_nil.
Qed.

(** C3, amended. [Is(t)] evaluates to the empty string exactly when
    [errors.Is(got, t)] returns true; then [got], or an error reached from
    it by repeated unwrapping, is [==] to [t] or accepts [t] through its own
    [Is] method. Where comparing [t] with the errors of the chain does not
    panic, the converse holds: such an error in the chain is enough. When
    [==] behaves as equality on [t] (comparable type, no NaN, no value of
    uncomparable type behind an interface), [Is(t)] matches [t] itself and
    every error that wraps it; an error that wraps nothing, is not [==] to
    [t] and has no [Is] method accepting [t] does not match, whatever its
    message; on mismatch the want-clause is "error that Is() <target>". *)
Theorem Is_chain_membership :
  (forall t got : error,
      call_ErrDiff (Is tbl IsMethod t) got = Ret EmptyString
      <-> errors_Is IsMethod got t = Ret true)
  /\ (forall x e : error_val,
        errors_Is IsMethod (Some e) (Some x) = Ret true ->
        exists y, reaches e y /\ link_matches IsMethod y x = true)
  /\ (forall x e : error_val,
        quiet x e ->
        (exists y, reaches e y /\ link_matches IsMethod y x = true) ->
        errors_Is IsMethod (Some e) (Some x) = Ret true)
  /\ (forall x e : error_val,
        regular_error (Some x) = true -> reaches e x ->
        call_ErrDiff (Is tbl IsMethod (Some x)) (Some e) = Ret EmptyString)
  /\ (forall (d : dyn) (x : error_val),
        quiet x (Plain d) -> link_matches IsMethod (Plain d) x = false ->
        call_ErrDiff (Is tbl IsMethod (Some x)) (Some (Plain d))
        = Ret ("got error " ++ dmsg d ++ "; want error that Is() " ++ Error x))
  /\ (forall t got : error,
        errors_Is IsMethod got t = Ret false ->
        call_ErrDiff (Is tbl IsMethod t) got
        = Ret ("got error " ++ render got ++ "; want error that Is() " ++ render t)).
Proof.
  split; [intros t got; split | split; [| split; [| split; [| split]]]].
  - rewrite Is_eval.
    destruct (errors_Is IsMethod got t) as [[|]| |]; [reflexivity | discriminate..].
  - rewrite Is_eval. now intros ->.
  - intros x e. apply is_sound.
  - intros x e Hq Hex. cbn [errors_Is].
    destruct (is_quiet IsMethod x e Hq) as [r [Hr Hr']]. rewrite Hr. f_equal. auto.
  - intros x e Hreg Hr. rewrite Is_eval.
    rewrite (errors_Is_reaches IsMethod x e); [reflexivity | | exact Hr |].
    + now apply (proj2 (go_eq_regular (Some x) (Some x) Hreg)).
    + now apply quiet_regular.
  - intros d x Hq Hl. rewrite Is_eval. cbn [errors_Is].
    destruct (is_quiet IsMethod x (Plain d) Hq) as [[|] [Hr _]]; rewrite Hr;
      [|reflexivity].
    apply is_sound in Hr as [y [Hy Hm]].
    apply reaches_inv in Hy as [->|[]]. congruence.
  - intros t got H. rewrite Is_eval. now rewrite H.
Qed.


(** C10. [Equals(nil)] and [Is(nil)] accept a nil observed error: both
    evaluate to the empty string on it, also through [Diff]. *)
Theorem nil_parameter_accepts_nil :
  call_ErrDiff (Equals tbl None) None = Ret EmptyString
  /\ call_ErrDiff (Is tbl IsMethod None) None = Ret EmptyString
  /\ Diff tbl None (Equals tbl None) = Ret EmptyString
  /\ Diff tbl None (Is tbl IsMethod None) = Ret EmptyString.
Proof. repeat split. Qed.

(** C4. [Contains(s)] evaluates to the empty string exactly when [got] is
    non-nil and [s] occurs in [got.Error()]; the empty substring matches
    every non-nil error and no nil one; on mismatch the want-clause is
    "containing substring " followed by [s] quoted, and
    [Diff(nil, Contains(""))] is the literal diagnostic of the example. *)
Theorem Contains_substring (s : string) (got : error) :
  (call_ErrDiff (Contains tbl s) got = Ret EmptyString
   <-> exists e, got = Some e /\ substring_of s (Error e))
  /\ (forall e : error_val,
        call_ErrDiff (Contains tbl EmptyString) (Some e) = Ret EmptyString)
  /\ call_ErrDiff (Contains tbl s) None
     = Ret ("got error <nil>; want containing substring " ++ GoString.Quote tbl s)
  /\ ((forall e, got = Some e -> ~ substring_of s (Error e)) ->
      call_ErrDiff (Contains tbl s) got
      = Ret ("got error " ++ render got ++ "; want containing substring "
             ++ GoString.Quote tbl s))
  /\ Diff tbl None (Contains tbl EmptyString)
     = Ret ("got error <nil>; want containing substring "
            ++ String GoString.dquote (String GoString.dquote EmptyString)).
Proof.
  split; [split | split; [| split; [| split]]].
  - rewrite Contains_eval. destruct got as [e|]; [|discriminate].
    destruct (GoString.Contains (Error e) s) eqn:Hc; [|discriminate].
    intros _. exists e. split; [reflexivity | now apply Contains_spec].
  - intros [e [-> Hs]]. rewrite Contains_eval.
    apply Contains_spec in Hs. now rewrite Hs.
  - intros e. rewrite Contains_eval.
    assert (H : GoString.Contains (Error e) EmptyString = true).
    { apply Contains_spec. now exists EmptyString, (Error e). }
    now rewrite H.
  - now rewrite Contains_eval.
  - intros H. rewrite Contains_eval. destruct got as [e|]; [|reflexivity].
    destruct (GoString.Contains (Error e) s) eqn:Hc; [|reflexivity].
    apply Contains_spec in Hc. now elim (H e eq_refl).
  - reflexivity.
Qed.

(** C7, amended. [Diff(nil, nil)] is empty; [Diff(got, nil)] is non-empty
    for every non-nil [got]; and [Diff(nil, expectation)] is non-empty for
    [Equals(w)] and [Is(t)] with a non-nil parameter, for [Contains(s)] with
    any [s] and for [As[T](match)] with any [T] and [match]. *)
Theorem absence_symmetry :
  Diff tbl None None = Ret EmptyString
  /\ (forall e : error_val,
        exists d, Diff tbl (Some e) None = Ret d /\ d <> EmptyString)
  /\ (forall w : error_val,
        exists d, Diff tbl None (Equals tbl (Some w)) = Ret d /\ d <> EmptyString)
  /\ (forall t : error_val,
        exists d, Diff tbl None (Is tbl IsMethod (Some t)) = Ret d /\ d <> EmptyString)
  /\ (forall s : string,
        exists d, Diff tbl None (Contains tbl s) = Ret d /\ d <> EmptyString)
  /\ (forall (T : target_type) (match_ : error_val -> string),
        exists d, Diff tbl None (As tbl AsMethod T match_) = Ret d /\ d <> EmptyString).
Proof.
  split; [reflexivity | split; [| split; [| split; [| split]]]].
  - intros e. eexists. split; [apply DiffMessage_nil | discriminate].
  - intros w. eexists.
    change (Diff tbl None (Equals tbl (Some w)))
      with (call_ErrDiff (Equals tbl (Some w)) None).
    rewrite Equals_eval. split; [reflexivity | discriminate].
  - intros t. eexists.
    change (Diff tbl None (Is tbl IsMethod (Some t)))
      with (call_ErrDiff (Is tbl IsMethod (Some t)) None).
    rewrite Is_eval. cbn [errors_Is]. split; [reflexivity | discriminate].
  - intros s. eexists.
    change (Diff tbl None (Contains tbl s)) with (call_ErrDiff (Contains tbl s) None).
    rewrite Contains_eval. split; [reflexivity | discriminate].
  - intros T match_. eexists.
    change (Diff tbl None (As tbl AsMethod T match_))
      with (call_ErrDiff (As tbl AsMethod T match_) None).
    rewrite As_eval. split; [reflexivity | discriminate].
Qed.

(** C9. Every non-empty string that [Diff] returns without an expectation
    or with one built by [Equals], [Is], [Contains] or [As], and every
    non-empty string the [ErrDiff] of such an expectation returns, has the
    form "got error <rendering of got>; want <description>". *)
Theorem diagnostics_canonical (got : error) (want : Want) (d : string) :
  builtin tbl IsMethod AsMethod want ->
  d <> EmptyString ->
  (Diff tbl got want = Ret d -> canonical got d)
  /\ (call_ErrDiff want got = Ret d -> canonical got d).
Proof.
  intros Hb Hd.
  assert (Hcall : want <> None -> call_ErrDiff want got = Ret d -> canonical got d).
  { intros _. destruct Hb as [|w|t|s|T match_].
    - discriminate.
    - rewrite Equals_eval. destruct (go_eq got w) as [[|]| |]; intros [= <-];
        [now elim Hd | now eexists].
    - rewrite Is_eval. destruct (errors_Is IsMethod got t) as [[|]| |];
        try discriminate; intros [= <-]; [now elim Hd | now eexists].
    - rewrite Contains_eval.
      destruct (match got with Some e => _ | None => false end); intros [= <-];
        [now elim Hd | now eexists].
    - rewrite As_eval. destruct (errors_As AsMethod got T) as [target|];
        [destruct (match_ target) as [|c r]|]; intros [= <-];
        [now elim Hd | now eexists | now eexists]. }
  split.
  - destruct want as [w|].
    + apply Hcall. discriminate.
    + destruct got as [e|]; cbn [Diff].
      * rewrite DiffMessage_nil. intros [= <-]. now eexists.
      * intros [= <-]. now elim Hd.
  - destruct want as [w|]; [apply Hcall; discriminate | discriminate].
Qed.

(** C8, amended. An observed error whose rendering is "wrapped(uh oh)",
    compared by [Equals] with a different error whose rendering is "uh oh",
    gives the diagnostic "got error wrapped(uh oh); want == uh oh". *)
Theorem Equals_scenario (got w : error_val) :
  Error got = "wrapped(uh oh)" -> Error w = "uh oh" ->
  go_eq (Some got) (Some w) = Ret false ->
  Diff tbl (Some got) (Equals tbl (Some w))
  = Ret "got error wrapped(uh oh); want == uh oh".
Proof.
  intros Hg Hw Hne.
  change (Diff tbl (Some got) (Equals tbl (Some w)))
    with (call_ErrDiff (Equals tbl (Some w)) (Some got)).
  rewrite Equals_eval, Hne. cbn [render]. now rewrite Hg, Hw.
Qed.

End Claims.

(** * The claims on the errors of the example *)

Import Example.

(** The embedding prints what the example of the package expects. *)
Lemma ExampleDiff_output : map run tests = output.
Proof. reflexivity. Qed.

(** C2, at the failing input. With [T] the interface type [net.Error] and
    an observed [errors.New("uh oh")], extraction fails and the diagnostic
    names no type: [%T] prints the nil interface that [var target T] holds. *)
Theorem As_interface_type_diagnostic :
  errors_As noAs (Some errUhOh) netError = None
  /\ Diff noTable (Some errUhOh) (As noTable noAs netError match42)
     = Ret "got error uh oh; want error tree containing type <nil>".
Proof. split; reflexivity. Qed.

(** C3, counterexample. A target whose dynamic type is not comparable is
    not matched by [Is], not even by itself. *)
Lemma Is_uncomparable_target_mismatch :
  reaches errBatch errBatch
  /\ call_ErrDiff (Is noTable noIs (Some errBatch)) (Some errBatch)
     = Ret "got error first; second; want error that Is() first; second"
  /\ call_ErrDiff (Is noTable noIs (Some errBatch)) (Some errBatch)
     <> Ret EmptyString.
Proof. split; [constructor | split; [reflexivity | discriminate]]. Qed.

(** Comparing [errUhOh] with the two errors of [errWrapped] returns. *)
Lemma quiet_errWrapped : quiet errUhOh errWrapped.
Proof.
  intros _ y Hy. apply reaches_inv in Hy as [->|Hy]; [discriminate|].
  apply reaches_inv in Hy as [->|[]]. discriminate.
Defined.

(** C3, witness: the wrapped target matches, the look-alike does not. *)
Lemma Is_chain_membership_witness :
  call_ErrDiff (Is noTable noIs (Some errUhOh)) (Some errWrapped) = Ret EmptyString
  /\ errors_Is noIs (Some errWrapped) (Some errUhOh) = Ret true
  /\ call_ErrDiff (Is noTable noIs (Some errUhOh)) (Some errLookalike)
     = Ret "got error uh oh; want error that Is() uh oh"
  /\ call_ErrDiff (Is noTable noIs (Some errUhOh)) (Some errOther)
     = Ret "got error something else; want error that Is() uh oh".
Proof.
  destruct (Is_chain_membership noTable noIs)
    as [_ [_ [Hchain [Hwrap [Hplain Hmis]]]]].
  split; [| split; [| split]].
  - apply Hwrap; [reflexivity | apply reaches_unwrap, reaches_self].
  - apply Hchain; [exact quiet_errWrapped|].
    exists errUhOh. split; [apply reaches_unwrap, reaches_self | reflexivity].
  - apply (Hplain {| dtype := errorString; dval := VScalar 5; dmsg := "uh oh" |}
             errUhOh); [|reflexivity].
    intros _ y Hy. apply reaches_inv in Hy as [->|[]]. discriminate.
  - apply (Hmis (Some errUhOh) (Some errOther)). reflexivity.
Defined.


(** C6, at the failing input. An explicit argument index in the
    description counts [got] as the first argument: [%[1]v] prints [got],
    where [Sprintf] on the description and its arguments prints 7. *)
Theorem DiffMessage_explicit_index :
  Sprintf noTable "code %[1]v" [AInt 7] = Ret "code 7"
  /\ DiffMessage noTable (Some errUhOh) "code %[1]v" [AInt 7]
     = Ret "got error uh oh; want code uh oh".
Proof. split; reflexivity. Qed.

(** C4, witness: "foobar" does not occur in "uh oh". *)
Lemma Contains_substring_witness :
  call_ErrDiff (Contains noTable "foobar") (Some errUhOh)
  = Ret ("got error uh oh; want containing substring "
         ++ String GoString.dquote ("foobar" ++ String GoString.dquote EmptyString)).
Proof.
  apply (proj1 (proj2 (proj2 (proj2 (Contains_substring noTable "foobar" (Some errUhOh)))))).
  intros e [= <-] H. apply Contains_spec in H. discriminate H.
Defined.


(** C7, counterexample. [Equals(nil)] and [Is(nil)] are built-in
    expectations that accept a nil observed error. *)
Lemma absence_accepted_with_nil_parameter :
  Diff noTable None (Equals noTable None) = Ret EmptyString
  /\ Diff noTable None (Is noTable noIs None) = Ret EmptyString.
Proof. split; reflexivity. Qed.

(** C8, counterexample. With the observed error rendering "uh oh" and the
    parameter of [Equals] rendering "wrapped(uh oh)", the diagnostic has
    the two renderings the other way round. *)
Lemma Equals_scenario_as_stated :
  Error errUhOh = "uh oh" /\ Error errWrapped = "wrapped(uh oh)"
  /\ Diff noTable (Some errUhOh) (Equals noTable (Some errWrapped))
     = Ret "got error uh oh; want == wrapped(uh oh)"
  /\ Diff noTable (Some errUhOh) (Equals noTable (Some errWrapped))
     <> Ret "got error wrapped(uh oh); want == uh oh".
Proof. repeat split. discriminate. Qed.

(** C8, witness: the row "Equals() when not equal" of the example. *)
Lemma Equals_scenario_witness :
  Diff noTable (Some errWrapped) (Equals noTable (Some errUhOh))
  = Ret "got error wrapped(uh oh); want == uh oh".
Proof.
  apply (Equals_scenario noTable errWrapped errUhOh); reflexivity.
Defined.

(** C9, witness: the diagnostic of the row "Is() when different". *)
Lemma diagnostics_canonical_witness :
  canonical (Some errOther) "got error something else; want error that Is() uh oh".
Proof.
  apply (proj1 (diagnostics_canonical noTable noIs noAs (Some errOther)
                  (Is noTable noIs (Some errUhOh))
                  "got error something else; want error that Is() uh oh"
                  (builtin_Is noTable noIs noAs (Some errUhOh))
                  ltac:(discriminate))).
  reflexivity.
Defined.

(** * Further properties of the package *)

Lemma string_app_assoc (a b c : string) : (a ++ b) ++ c = a ++ b ++ c.
Proof. induction a as [|x a IH]; cbn; [reflexivity | now rewrite IH]. Qed.

Lemma substring_of_trans (a b c : string) :
  substring_of a b -> substring_of b c -> substring_of a c.
Proof.
  intros [p [q ->]] [p' [q' ->]]. exists (p' ++ p), (q ++ q').
  now rewrite !string_app_assoc.
Qed.

Lemma substring_of_refl (a : string) : substring_of a a.
Proof. exists EmptyString, EmptyString. cbn. now rewrite append_nil_r. Qed.

Section Formats.

Variable tbl : Z -> bool.

(** A format without [%] is copied, then the surplus arguments reported. *)
Lemma doPrintf_percent_free (lit : string) (a : list any) (n : nat) :
  percent_free lit = true ->
  doPrintf tbl lit PText a n false
  = (r <- extra tbl (skipn n a) ;; Ret (lit ++ r)).
Proof.
  induction lit as [|c lit IH]; cbn [percent_free doPrintf]; intros H.
  - unfold finish. now destruct (extra tbl (skipn n a)).
  - apply andb_true_iff in H as [Hc H]. unfold is_verb.
    apply negb_true_iff in Hc. rewrite Hc, (IH H).
    now destruct (extra tbl (skipn n a)).
Qed.

(** Plain text is quoted by putting it between double quotes. *)
Lemma quoteBody_plain (s : string) :
  plain_ascii s = true -> GoString.quoteBody tbl 0 s = s.
Proof.
  induction s as [|c s IH]; [reflexivity|].
  cbn [plain_ascii GoString.quoteBody]. intros H.
  repeat (apply andb_true_iff in H as [H ?]).
  apply Z.leb_le in H.
  repeat match goal with
         | Hb : (_ <=? _) = true |- _ => apply Z.leb_le in Hb
         | Hb : negb (_ =? _) = true |- _ =>
             apply negb_true_iff in Hb; apply Z.eqb_neq in Hb
         end.
  set (b := GoString.byte_of c) in *.
  assert (Hlt : (b <? 128) = true) by (apply Z.ltb_lt; lia).
  rewrite Hlt. cbn [fst snd].
  assert (Hre : (b =? GoString.RuneError) = false)
    by (apply Z.eqb_neq; unfold GoString.RuneError; lia).
  rewrite Hre. cbn [Z.eqb andb Pos.eqb].
  unfold GoString.appendEscapedRune, GoString.IsPrint.
  assert (H34 : (b =? 34) = false) by (apply Z.eqb_neq; lia).
  assert (H92 : (b =? 92) = false) by (apply Z.eqb_neq; lia).
  assert (H255 : (b <=? 255) = true) by (apply Z.leb_le; lia).
  assert (H32 : (32 <=? b) = true) by (apply Z.leb_le; lia).
  assert (H126 : (b <=? 126) = true) by (apply Z.leb_le; lia).
  rewrite H34, H92, H255, H32, H126. cbn [orb andb].
  change (Z.to_nat 1) with 1%nat. cbn [GoString.take Nat.pred append].
  now rewrite IH.
Qed.

End Formats.

Section Further.

Variable tbl : Z -> bool.
Variable IsMethod : gotype -> option (error_val -> error_val -> bool).
Variable AsMethod : gotype -> option (error_val -> target_type -> option error_val).

(** The adaptor [Func]: [Diff] with the expectation made from a function
    returns what the function returns, for a nil [got] as for any other;
    the nil-expectation branch of [Diff] is never taken. *)
Theorem Diff_Func (fn : Func) (got : error) :
  Diff tbl got (Func_Want fn) = fn got
  /\ call_ErrDiff (Func_Want fn) got = fn got
  /\ Func_Want fn <> None.
Proof. repeat split. discriminate. Qed.

(** X1. [Is] is the weaker check: whatever [Equals(w)] accepts, [Is(w)]
    accepts. *)
Theorem Equals_implies_Is (w got : error) :
  call_ErrDiff (Equals tbl w) got = Ret EmptyString ->
  call_ErrDiff (Is tbl IsMethod w) got = Ret EmptyString.
Proof.
  rewrite Equals_eval, Is_eval.
  destruct (go_eq got w) as [[|]| |] eqn:H; try discriminate. intros _.
  destruct got as [x|], w as [y|]; try discriminate H; [|reflexivity].
  cbn [errors_Is]. rewrite is_unfold.
  rewrite (proj2 (go_eq_true _ _ H) y eq_refl), H. reflexivity.
Qed.

(** X2. With a nil parameter, [Equals] and [Is] accept a nil error and nothing
    else; a non-nil error gets the diagnostic that wants [<nil>]. *)
Theorem nil_parameter_only_nil (got : error) :
  (call_ErrDiff (Equals tbl None) got = Ret EmptyString <-> got = None)
  /\ (call_ErrDiff (Is tbl IsMethod None) got = Ret EmptyString <-> got = None)
  /\ (forall e : error_val,
        call_ErrDiff (Equals tbl None) (Some e)
        = Ret ("got error " ++ Error e ++ "; want == <nil>")
        /\ call_ErrDiff (Is tbl IsMethod None) (Some e)
           = Ret ("got error " ++ Error e ++ "; want error that Is() <nil>")).
Proof.
  split; [|split].
  - rewrite Equals_eval. destruct got as [e|]; cbn; split;
      (discriminate || reflexivity).
  - rewrite Is_eval. destruct got as [e|]; cbn; split;
      (discriminate || reflexivity).
  - intros e. rewrite Equals_eval, Is_eval. split; reflexivity.
Qed.

(** X3. Wrapping keeps an [Is] expectation satisfied as long as the
    comparisons with the target do not panic: if [Is(t)] accepts an error,
    it accepts an error whose [Unwrap] returns it, when comparing that
    wrapper with [t] does not panic, and an error whose [Unwrap] returns it
    among others, when comparing [t] with the errors of that tree does not
    panic. *)
Theorem Is_survives_wrapping (x e : error_val) :
  call_ErrDiff (Is tbl IsMethod (Some x)) (Some e) = Ret EmptyString ->
  (forall d,
      (tcomparable (TypeOf x) = true ->
       go_eq (Some (Wraps d (Some e))) (Some x) <> Panic) ->
      call_ErrDiff (Is tbl IsMethod (Some x)) (Some (Wraps d (Some e)))
      = Ret EmptyString)
  /\ (forall d es, In (Some e) es -> quiet x (Joins d es) ->
        call_ErrDiff (Is tbl IsMethod (Some x)) (Some (Joins d es))
        = Ret EmptyString).
Proof.
  rewrite Is_eval.
  destruct (errors_Is IsMethod (Some e) (Some x)) as [[|]| |] eqn:H;
    try discriminate.
  intros _. cbn [errors_Is] in H. split.
  - intros d Hq. rewrite Is_eval. cbn [errors_Is]. rewrite is_unfold.
    destruct (tcomparable (TypeOf x)) eqn:Hc.
    + specialize (Hq eq_refl).
      pose proof (go_eq_supported (Some (Wraps d (Some e))) (Some x)) as Hs.
      destruct (go_eq (Some (Wraps d (Some e))) (Some x)) as [r| |];
        [| now elim Hq | now elim Hs].
      cbn [bind is_below].
      destruct (r || _); [reflexivity | now rewrite Hc, H].
    + cbn [bind is_below orb].
      destruct (match IsMethod _ with Some _ => _ | None => _ end);
        [reflexivity | now rewrite Hc, H].
  - intros d es Hin Hq. rewrite Is_eval. cbn [errors_Is].
    apply is_sound in H as [y [Hy Hm]].
    destruct (is_quiet IsMethod x (Joins d es) Hq) as [r [Hr Hex]].
    rewrite Hr, Hex; [reflexivity|].
    exists y. split; [now apply reaches_join with e | exact Hm].
Qed.

(** X4. An error whose own [Is] method accepts the target satisfies [Is], at
    any depth of a chain whose errors compare with the target without a
    panic, and whether or not the target is comparable. *)
Theorem Is_custom_method (t x e : error_val) (m : error_val -> error_val -> bool) :
  IsMethod (TypeOf x) = Some m -> m x t = true -> reaches e x -> quiet t e ->
  call_ErrDiff (Is tbl IsMethod (Some t)) (Some e) = Ret EmptyString.
Proof.
  intros Hm Hacc Hr Hq. rewrite Is_eval. cbn [errors_Is].
  destruct (is_quiet IsMethod t e Hq) as [r [Hr' Hex]].
  rewrite Hr', Hex; [reflexivity|].
  exists x. split; [exact Hr|]. unfold link_matches. rewrite Hm, Hacc.
  apply orb_true_r.
Qed.

(** X5. [Equals] panics exactly when [got] and its parameter are non-nil
    values of one dynamic type, and that type is not comparable or the
    comparison of the two values panics on what their interface fields
    hold; it never panics for a parameter on which [==] behaves as
    equality. *)
Theorem Equals_panics_iff (w got : error) :
  (call_ErrDiff (Equals tbl w) got = Panic
   <-> exists x y, got = Some x /\ w = Some y
         /\ TypeOf x = TypeOf y
         /\ (tcomparable (TypeOf x) = false
             \/ value_eq (dval (header x)) (dval (header y)) = Panic))
  /\ (regular_error w = true -> call_ErrDiff (Equals tbl w) got <> Panic).
Proof.
  split.
  - rewrite Equals_eval. split.
    + destruct (go_eq got w) as [[|]| |] eqn:H; try discriminate. intros _.
      destruct got as [x|], w as [y|]; cbn [go_eq] in H; try discriminate H.
      destruct (gotype_eqb (TypeOf x) (TypeOf y)) eqn:Ht; [|discriminate H].
      apply gotype_eqb_eq in Ht. exists x, y. repeat split; [exact Ht|].
      destruct (tcomparable (TypeOf x)); [now right | now left].
    + intros [x [y [-> [-> [Ht Hc]]]]]. cbn [go_eq].
      rewrite (proj2 (gotype_eqb_eq _ _) Ht).
      destruct Hc as [Hc|Hc]; [now rewrite Hc|].
      rewrite Hc. now destruct (tcomparable (TypeOf x)).
  - intros Hreg. rewrite Equals_eval.
    destruct (proj1 (go_eq_regular got w Hreg)) as [r ->]. now destruct r.
Qed.

(** X6. With the caller's own [Error], [Is], [As] and [match] functions
    returning, [Contains], [As] and [Diff] without an expectation return a
    string on every input, and so does [Is] whenever comparing its target
    with the errors of the chain of [got] does not panic. *)
Theorem matchers_return (got : error) :
  (forall t,
      (forall x e, t = Some x -> got = Some e -> quiet x e) ->
      exists d, call_ErrDiff (Is tbl IsMethod t) got = Ret d)
  /\ (forall s, exists d, call_ErrDiff (Contains tbl s) got = Ret d)
  /\ (forall T match_, exists d, call_ErrDiff (As tbl AsMethod T match_) got = Ret d)
  /\ (exists d, Diff tbl got None = Ret d).
Proof.
  split; [|split; [|split]].
  - intros t Hq. rewrite Is_eval.
    destruct got as [e|], t as [x|]; cbn [errors_Is]; try now eexists.
    destruct (is_quiet IsMethod x e (Hq x e eq_refl eq_refl)) as [[|] [-> _]];
      now eexists.
  - intros s. rewrite Contains_eval.
    destruct (match got with Some e => _ | None => false end); now eexists.
  - intros T match_. rewrite As_eval.
    destruct (errors_As AsMethod got T) as [v|]; [|now eexists].
    destruct (match_ v); now eexists.
  - destruct got as [e|]; cbn [Diff]; [rewrite DiffMessage_nil|]; now eexists.
Qed.

(** X7. [Contains] accepts every part of what it accepts: if [Contains(s)]
    accepts [got], so does [Contains(s')] for each [s'] occurring in [s];
    and [Contains(got.Error())] accepts [got]. *)
Theorem Contains_weaker_substring (s s' : string) (got : error) :
  (call_ErrDiff (Contains tbl s) got = Ret EmptyString -> substring_of s' s ->
   call_ErrDiff (Contains tbl s') got = Ret EmptyString)
  /\ (forall e : error_val,
        call_ErrDiff (Contains tbl (Error e)) (Some e) = Ret EmptyString).
Proof.
  split.
  - rewrite !Contains_eval. destruct got as [e|]; [|discriminate].
    destruct (GoString.Contains (Error e) s) eqn:Hs; [|discriminate].
    intros _ Hsub. apply Contains_spec in Hs.
    pose proof (substring_of_trans _ _ _ Hsub Hs) as H.
    apply Contains_spec in H. now rewrite H.
  - intros e. rewrite Contains_eval.
    now rewrite (proj2 (Contains_spec (Error e) (Error e)) (substring_of_refl _)).
Qed.

(** X8. A [Contains] expectation survives wrapping that keeps the message: if
    it accepts an error, it accepts every error whose message contains
    that error's message. *)
Theorem Contains_survives_wrapping (s : string) (inner outer : error_val) :
  call_ErrDiff (Contains tbl s) (Some inner) = Ret EmptyString ->
  substring_of (Error inner) (Error outer) ->
  call_ErrDiff (Contains tbl s) (Some outer) = Ret EmptyString.
Proof.
  rewrite !Contains_eval.
  destruct (GoString.Contains (Error inner) s) eqn:Hs; [|discriminate].
  intros _ Hsub. apply Contains_spec in Hs.
  pose proof (substring_of_trans _ _ _ Hs Hsub) as H.
  apply Contains_spec in H. now rewrite H.
Qed.

(** X9. For a substring of printable ASCII without double quote or backslash,
    the mismatch diagnostic of [Contains] shows it between double quotes,
    unchanged. *)
Theorem Contains_plain_diagnostic (s : string) (got : error) :
  plain_ascii s = true ->
  (forall e, got = Some e -> ~ substring_of s (Error e)) ->
  call_ErrDiff (Contains tbl s) got
  = Ret ("got error " ++ render got ++ "; want containing substring "
         ++ String GoString.dquote (s ++ String GoString.dquote EmptyString)).
Proof.
  intros Hp Hn. rewrite Contains_eval.
  unfold GoString.Quote. rewrite (quoteBody_plain tbl s Hp).
  destruct got as [e|]; [|reflexivity].
  destruct (GoString.Contains (Error e) s) eqn:Hc; [|reflexivity].
  apply Contains_spec in Hc. now elim (Hn e eq_refl).
Qed.

(** X10. A description without [%] and without arguments is used as it is. *)
Theorem DiffMessage_literal (got : error) (lit : string) :
  percent_free lit = true ->
  DiffMessage tbl got lit []
  = Ret ("got error " ++ render got ++ "; want " ++ lit).
Proof.
  intros H. rewrite DiffMessage_unfold, (doPrintf_percent_free tbl lit _ 1 H).
  cbn. now rewrite append_nil_r.
Qed.

(** X11. Arguments the description has no verb for are not dropped silently:
    they are appended as [%!(EXTRA type=value, ...)]. *)
Theorem DiffMessage_surplus_arguments
    (got : error) (lit : string) (x : any) (a : list any) :
  percent_free lit = true ->
  DiffMessage tbl got lit (x :: a)
  = (r <- extra_args tbl (x :: a) ;;
     Ret ("got error " ++ render got ++ "; want " ++ lit
          ++ "%!(EXTRA " ++ r ++ ")")).
Proof.
  intros H. rewrite DiffMessage_unfold, (doPrintf_percent_free tbl lit _ 1 H).
  cbn [skipn extra]. now destruct (extra_args tbl (x :: a)).
Qed.

(** X12. For a description without explicit argument indexes, what
    [DiffMessage] returns is "got error ", the rendering of [got],
    "; want " and the text that [Sprintf] gives for the description and
    its arguments; it is never the empty string that stands for a match. *)
Theorem DiffMessage_plain_description
    (got : error) (wantFormat : string) (a : list any) (r : string) :
  sequential wantFormat = true ->
  Sprintf tbl wantFormat a = Ret r ->
  DiffMessage tbl got wantFormat a
  = Ret ("got error " ++ render got ++ "; want " ++ r)
  /\ DiffMessage tbl got wantFormat a <> Ret EmptyString.
Proof.
  intros Hseq Hr. rewrite (DiffMessage_sequential tbl got wantFormat a Hseq), Hr.
  split; [reflexivity | discriminate].
Qed.

(** X18. [Equals] does not depend on which error is the parameter and which
    is observed: [Equals(w)] accepts [got] exactly when [Equals(got)]
    accepts [w]. *)
Theorem Equals_symmetric (w got : error) :
  call_ErrDiff (Equals tbl w) got = Ret EmptyString
  <-> call_ErrDiff (Equals tbl got) w = Ret EmptyString.
Proof.
  assert (H : forall a b : error,
             call_ErrDiff (Equals tbl a) b = Ret EmptyString ->
             call_ErrDiff (Equals tbl b) a = Ret EmptyString).
  { intros a b. rewrite !Equals_eval, (go_eq_sym a b).
    destruct (go_eq b a) as [[|]| |]; (reflexivity || discriminate). }
  split; apply H.
Qed.

(** X19. [Equals(e)] accepts [e] itself exactly when [==] behaves as
    equality on [e]: its dynamic type is comparable and its value holds no
    NaN and no value of uncomparable type behind an interface. *)
Theorem Equals_itself (e : error_val) :
  call_ErrDiff (Equals tbl (Some e)) (Some e) = Ret EmptyString
  <-> regular_error (Some e) = true.
Proof.
  rewrite Equals_eval. cbn [go_eq regular_error].
  rewrite (proj2 (gotype_eqb_eq _ _) eq_refl). split.
  - destruct (tcomparable (TypeOf e)); [|discriminate].
    destruct (value_eq (dval (header e)) (dval (header e))) as [[|]| |] eqn:H;
      try discriminate.
    intros _. now apply value_eq_refl_regular.
  - intros H. apply andb_true_iff in H as [-> H].
    now rewrite (proj1 (value_eq_regular _ H)).
Qed.

Lemma As_verdict (T : target_type) (match_ : error_val -> string)
    (got : error) (v : error_val) :
  errors_As AsMethod got T = Some v ->
  call_ErrDiff (As tbl AsMethod T match_) got = verdict got (match_ v).
Proof.
  intros H. rewrite As_eval, H. unfold verdict. now destruct (match_ v).
Qed.

(** X13. [As] reports "error tree containing type" when no error of the chain
    is assignable to [T] or supplies a [T] through its [As] method, whatever
    [match] is; as soon as one does, the result is the verdict of [match] on
    a value that such a link of the chain provides. *)
Theorem As_extraction (T : target_type) (match_ : error_val -> string)
    (e : error_val) :
  ((forall x, reaches e x -> as_link AsMethod x T = None) ->
   call_ErrDiff (As tbl AsMethod T match_) (Some e)
   = Ret ("got error " ++ Error e ++ "; want error tree containing type "
          ++ type_string (zero_target T)))
  /\ (forall x, reaches e x -> as_link AsMethod x T <> None ->
      exists y v, reaches e y /\ as_link AsMethod y T = Some v
        /\ call_ErrDiff (As tbl AsMethod T match_) (Some e)
           = verdict (Some e) (match_ v)).
Proof.
  split.
  - intros H. apply as_none in H. rewrite As_eval. cbn [errors_As]. now rewrite H.
  - intros x Hr Hx.
    destruct (as_ AsMethod e T) as [v|] eqn:Hv.
    + destruct (as_some _ _ _ _ Hv) as [y [Hy Hl]].
      exists y, v. split; [exact Hy | split; [exact Hl|]].
      now apply As_verdict.
    + elim Hx. now apply (proj1 (as_none AsMethod T e) Hv).
Qed.

(** X14. [As] accepts exactly when extraction succeeds and [match] returns the
    empty string on the extracted error. *)
Theorem As_accepts_iff (T : target_type) (match_ : error_val -> string)
    (got : error) :
  call_ErrDiff (As tbl AsMethod T match_) got = Ret EmptyString
  <-> exists v, errors_As AsMethod got T = Some v /\ match_ v = EmptyString.
Proof.
  rewrite As_eval. split.
  - destruct (errors_As AsMethod got T) as [v|]; [|discriminate].
    destruct (match_ v) eqn:Hm; [|discriminate].
    intros _. now exists v.
  - intros [v [-> ->]]. reflexivity.
Qed.

(** X15. For a concrete type [T], the diagnostic of a failed extraction names
    [T]; a nil [got] always fails. *)
Theorem As_concrete_type_named (t : gotype) (match_ : error_val -> string)
    (got : error) :
  (forall e, got = Some e ->
     forall x, reaches e x -> as_link AsMethod x (ConcreteT t) = None) ->
  call_ErrDiff (As tbl AsMethod (ConcreteT t) match_) got
  = Ret ("got error " ++ render got ++ "; want error tree containing type "
         ++ tname t).
Proof.
  intros H. rewrite As_eval. destruct got as [e|]; [|reflexivity].
  cbn [errors_As]. now rewrite (proj2 (as_none AsMethod (ConcreteT t) e) (H e eq_refl)).
Qed.

(** X16. When no error type declares an [As] method, [match] is only ever
    applied to an error of [got]'s chain that is assignable to [T]; if the
    chain has none, the result is the "error tree containing type"
    diagnostic. *)
Theorem As_match_sees_chain_value (T : target_type)
    (match_ : error_val -> string) (e : error_val) :
  (forall t, AsMethod t = None) ->
  (call_ErrDiff (As tbl AsMethod T match_) (Some e)
   = Ret ("got error " ++ Error e ++ "; want error tree containing type "
          ++ type_string (zero_target T))
   /\ forall x, reaches e x -> AssignableTo (TypeOf x) T = false)
  \/ (exists v, reaches e v /\ AssignableTo (TypeOf v) T = true
        /\ call_ErrDiff (As tbl AsMethod T match_) (Some e)
           = verdict (Some e) (match_ v)).
Proof.
  intros Hno.
  assert (Hlink : forall x, as_link AsMethod x T
                            = if AssignableTo (TypeOf x) T then Some x else None).
  { intros x. unfold as_link. now rewrite Hno. }
  destruct (as_ AsMethod e T) as [v|] eqn:Hv.
  - right. destruct (as_some _ _ _ _ Hv) as [y [Hy Hl]].
    rewrite Hlink in Hl.
    destruct (AssignableTo (TypeOf y) T) eqn:Ha; [|discriminate].
    injection Hl as ->. exists v. split; [exact Hy | split; [exact Ha|]].
    now apply As_verdict.
  - left. split.
    + rewrite As_eval. cbn [errors_As]. now rewrite Hv.
    + intros x Hr. pose proof (proj1 (as_none AsMethod T e) Hv x Hr) as Hx.
      rewrite Hlink in Hx. now destruct (AssignableTo (TypeOf x) T).
Qed.

(** X17. The outermost error comes first: when [got] itself is assignable to
    [T], [match] is applied to [got], not to anything [got] wraps. *)
Theorem As_outermost_first (T : target_type) (match_ : error_val -> string)
    (e : error_val) :
  AssignableTo (TypeOf e) T = true ->
  call_ErrDiff (As tbl AsMethod T match_) (Some e) = verdict (Some e) (match_ e).
Proof.
  intros H. apply As_verdict. cbn [errors_As].
  rewrite as_unfold. unfold as_link. now rewrite H.
Qed.

End Further.

(** ** The error type and the expectation of the example *)

(** [myError.Error] builds the message that [myErrorOf] records. *)
Theorem myError_Error_message (val : Z) :
  myError_Error val = Ret (Error (myErrorOf val)).
Proof. reflexivity. Qed.

(** X20. [want42] judges a [myError] by its field: any value but 42 is reported
    with the description of the matcher function, without any prefix. *)
Theorem want42_verdict (val : Z) :
  Diff noTable (Some (myErrorOf val)) want42
  = if val =? 42 then Ret EmptyString
    else Ret ("got error val " ++ decimal val ++ " is not good; want 42 (of course)").
Proof.
  change (Diff noTable (Some (myErrorOf val)) want42)
    with (call_ErrDiff want42 (Some (myErrorOf val))).
  unfold want42.
  rewrite (As_verdict noTable noAs (ConcreteT myError) match42
             (Some (myErrorOf val)) (myErrorOf val) eq_refl).
  unfold match42, myError_val. cbn [header myErrorOf dval].
  destruct (val =? 42); [reflexivity|]. cbn. now rewrite string_app_assoc.
Qed.

(** X21. [want42] looks through a wrapper of another type: the verdict is that
    of the wrapped [myError], the diagnostic shows the wrapper's message. *)
Theorem want42_through_wrapper (d : dyn) (val : Z) :
  gotype_eqb (dtype d) myError = false ->
  Diff noTable (Some (Wraps d (Some (myErrorOf val)))) want42
  = if val =? 42 then Ret EmptyString
    else Ret ("got error " ++ dmsg d ++ "; want 42 (of course)").
Proof.
  intros Hd.
  change (Diff noTable (Some (Wraps d (Some (myErrorOf val)))) want42)
    with (call_ErrDiff want42 (Some (Wraps d (Some (myErrorOf val))))).
  unfold want42.
  rewrite (As_verdict noTable noAs (ConcreteT myError) match42 _ (myErrorOf val)).
  - unfold match42, myError_val. cbn [header myErrorOf dval].
    destruct (val =? 42); reflexivity.
  - cbn [errors_As]. rewrite as_unfold. unfold as_link.
    change (TypeOf (Wraps d (Some (myErrorOf val)))) with (dtype d).
    cbn [AssignableTo]. rewrite Hd. reflexivity.
Qed.

(** ** Instances on the errors of the example *)

Lemma Equals_implies_Is_witness :
  call_ErrDiff (Is noTable noIs (Some errUhOh)) (Some errUhOh) = Ret EmptyString.
Proof. apply (Equals_implies_Is noTable noIs (Some errUhOh) (Some errUhOh)). reflexivity. Defined.

Lemma Is_survives_wrapping_witness :
  call_ErrDiff (Is noTable noIs (Some errUhOh)) (Some errWrapped) = Ret EmptyString
  /\ call_ErrDiff (Is noTable noIs (Some errUhOh))
       (Some (Joins (header errWrapped) [None; Some errUhOh])) = Ret EmptyString.
Proof.
  destruct (Is_survives_wrapping noTable noIs errUhOh errUhOh eq_refl) as [Hw Hj].
  split.
  - apply Hw. discriminate.
  - apply Hj; [right; now left|].
    intros _ y Hy. apply reaches_inv in Hy as [->|[e [Hin Hy]]]; [discriminate|].
    destruct Hin as [Hin|[Hin|[]]]; [discriminate Hin|].
    injection Hin as <-. apply reaches_inv in Hy as [->|[]]. discriminate.
Defined.

Lemma Is_custom_method_witness :
  call_ErrDiff (Is noTable Custom.isTable (Some Custom.errCodeA))
    (Some Custom.errRequest) = Ret EmptyString.
Proof.
  apply (Is_custom_method noTable Custom.isTable Custom.errCodeA Custom.errCodeB
           Custom.errRequest
           (fun _ target => gotype_eqb (TypeOf target) Custom.codeError)).
  - reflexivity.
  - reflexivity.
  - apply reaches_unwrap, reaches_self.
  - intros Hc. discriminate Hc.
Defined.

Lemma matchers_return_witness :
  exists d, call_ErrDiff (Is noTable noIs (Some errUhOh)) (Some errWrapped) = Ret d.
Proof.
  apply (proj1 (matchers_return noTable noIs noAs (Some errWrapped)) (Some errUhOh)).
  intros x e [= <-] [= <-]. exact quiet_errWrapped.
Defined.

(** Where [==] does not behave as equality: a comparable struct holding a
    slice behind an interface makes [Is] and [Equals] panic on the error
    itself, directly or wrapped; a NaN is rejected as not equal to
    itself. *)
Lemma comparison_hazards :
  call_ErrDiff (Is noTable noIs (Some Custom.errBox)) (Some Custom.errBox) = Panic
  /\ call_ErrDiff (Equals noTable (Some Custom.errBox)) (Some Custom.errBox) = Panic
  /\ call_ErrDiff (Is noTable noIs (Some Custom.errBox))
       (Some (Wraps (header errWrapped) (Some Custom.errBox))) = Panic
  /\ call_ErrDiff (Is noTable noIs (Some Custom.errNaN)) (Some Custom.errNaN)
     = Ret "got error ratio NaN; want error that Is() ratio NaN"
  /\ call_ErrDiff (Equals noTable (Some Custom.errNaN)) (Some Custom.errNaN)
     = Ret "got error ratio NaN; want == ratio NaN".
Proof. repeat split. Qed.

Lemma Contains_weaker_substring_witness :
  call_ErrDiff (Contains noTable "uh") (Some errUhOh) = Ret EmptyString.
Proof.
  apply (proj1 (Contains_weaker_substring noTable "uh oh" "uh" (Some errUhOh))).
  - reflexivity.
  - now exists EmptyString, " oh".
Defined.

Lemma Contains_survives_wrapping_witness :
  call_ErrDiff (Contains noTable "uh") (Some errWrapped) = Ret EmptyString.
Proof.
  apply (Contains_survives_wrapping noTable "uh" errUhOh errWrapped).
  - reflexivity.
  - now exists "wrapped(", ")".
Defined.

Lemma Contains_plain_diagnostic_witness :
  call_ErrDiff (Contains noTable "foobar") (Some errUhOh)
  = Ret ("got error uh oh; want containing substring "
         ++ String GoString.dquote ("foobar" ++ String GoString.dquote EmptyString)).
Proof.
  apply (Contains_plain_diagnostic noTable "foobar" (Some errUhOh)).
  - reflexivity.
  - intros e [= <-] H. apply Contains_spec in H. discriminate H.
Defined.

Lemma DiffMessage_literal_witness :
  DiffMessage noTable (Some errUhOh) "no error at all" []
  = Ret "got error uh oh; want no error at all".
Proof. apply (DiffMessage_literal noTable (Some errUhOh) "no error at all"). reflexivity. Defined.

Lemma DiffMessage_surplus_arguments_witness :
  DiffMessage noTable None "nil" [AStr "spare"; AInt 7]
  = Ret "got error <nil>; want nil%!(EXTRA string=spare, int=7)".
Proof.
  apply (DiffMessage_surplus_arguments noTable None "nil" (AStr "spare") [AInt 7]).
  reflexivity.
Defined.

Lemma DiffMessage_plain_description_witness :
  DiffMessage noTable (Some errUhOh) "code %d, not %d" [AInt 7]
  = Ret "got error uh oh; want code 7, not %!d(MISSING)"
  /\ DiffMessage noTable (Some errUhOh) "code %d, not %d" [AInt 7]
     <> Ret EmptyString.
Proof.
  apply (DiffMessage_plain_description noTable (Some errUhOh) "code %d, not %d"
           [AInt 7] "code 7, not %!d(MISSING)"); reflexivity.
Defined.

Lemma As_extraction_witness :
  call_ErrDiff (As noTable noAs (ConcreteT myError) match42) (Some errWrapped)
  = Ret ("got error wrapped(uh oh); want error tree containing type "
         ++ "testerr_test.myError").
Proof.
  apply (proj1 (As_extraction noTable noAs (ConcreteT myError) match42 errWrapped)).
  intros x Hr.
  apply reaches_inv in Hr as [->|Hr]; [reflexivity|].
  apply reaches_inv in Hr as [->|[]]. reflexivity.
Defined.

Lemma As_concrete_type_named_witness :
  call_ErrDiff (As noTable noAs (ConcreteT myError) match42) (Some errUhOh)
  = Ret "got error uh oh; want error tree containing type testerr_test.myError".
Proof.
  apply (As_concrete_type_named noTable noAs myError match42 (Some errUhOh)).
  intros e [= <-] x Hr. apply reaches_inv in Hr as [->|[]]. reflexivity.
Defined.

Lemma As_match_sees_chain_value_witness :
  (call_ErrDiff (As noTable noAs (ConcreteT myError) match42) (Some err43)
   = Ret ("got error " ++ Error err43 ++ "; want error tree containing type "
          ++ type_string (zero_target (ConcreteT myError)))
   /\ forall x, reaches err43 x -> AssignableTo (TypeOf x) (ConcreteT myError) = false)
  \/ (exists v, reaches err43 v /\ AssignableTo (TypeOf v) (ConcreteT myError) = true
        /\ call_ErrDiff (As noTable noAs (ConcreteT myError) match42) (Some err43)
           = verdict (Some err43) (match42 v)).
Proof.
  apply (As_match_sees_chain_value noTable noAs (ConcreteT myError) match42 err43).
  reflexivity.
Defined.

Lemma As_outermost_first_witness :
  call_ErrDiff (As noTable noAs (ConcreteT wrapError) Error) (Some errWrapped)
  = Ret "got error wrapped(uh oh); want wrapped(uh oh)".
Proof.
  apply (As_outermost_first noTable noAs (ConcreteT wrapError) Error errWrapped).
  reflexivity.
Defined.

Lemma want42_through_wrapper_witness :
  Diff noTable (Some (Wraps (header errWrapped) (Some err43))) want42
  = Ret "got error wrapped(uh oh); want 42 (of course)".
Proof.
  apply (want42_through_wrapper (header errWrapped) 43). reflexivity.
Defined.
